(** * kanji_book_cloud_vision: the word extractor, the merger/classifier
      and the output records, embedded from [kanji_book_cloud_vision.py].

    Conventions of the embedding.
    - Python [int] is [Z]; pixel thresholds of the configuration are [Z].
    - A Python [str] is represented by its UTF-8 bytes, a Rocq [string];
      concatenation of texts is concatenation of their encodings, and a
      code point of the ASCII range is the single byte with that code.
    - A confidence score is a finite float; finite floats are rationals
      and [>=] on them is the order of the rationals, so scores are [Q].
    - An exception is a value of [exn]; fallible code lives in [result].
    - [Word] objects are mutable in the source ([Word.merge] updates its
      receiver).  The merge pass therefore runs on an explicit store of
      objects addressed by references. *)

From Stdlib Require Import ZArith Lia List String Ascii Bool.
From Stdlib Require QArith.
From stdpp Require Import base tactics option list strings gmap.
Import ListNotations.

Local Open Scope Z_scope.

(** ** Exceptions *)

Inductive exn : Type := IndexError.

Inductive result (A : Type) : Type :=
| Ok (a : A)
| Raise (e : exn).
Arguments Ok {A} a.
Arguments Raise {A} e.

#[global] Instance result_ret : MRet result := fun A a => Ok a.
#[global] Instance result_bind : MBind result := fun A B f m =>
  match m with
  | Ok a => f a
  | Raise e => Raise e
  end.
#[global] Instance result_fmap : FMap result := fun A B f m =>
  match m with
  | Ok a => Ok (f a)
  | Raise e => Raise e
  end.

(** [l[i]] for a non-negative index. *)
Definition index {A} (l : list A) (i : nat) : result A :=
  match l !! i with
  | Some x => Ok x
  | None => Raise IndexError
  end.

(** [l[-1]]. *)
Definition index_last {A} (l : list A) : result A :=
  match last l with
  | Some x => Ok x
  | None => Raise IndexError
  end.

(** [for x in xs: s = body s x], stopping at the first exception. *)
Fixpoint for_each {S X} (xs : list X) (body : S -> X -> result S) (s : S)
  : result S :=
  match xs with
  | [] => Ok s
  | x :: xs' => s' ← body s x; for_each xs' body s'
  end.

(** ** Configuration (the keys read from the TOML document) *)

Record Config : Type := {
  min_confidence : QArith_base.Q;
  min_word_height : Z;
  min_kanji_height : Z;
  min_interword_distance : Z;
  max_distance_from_kanji_top : Z;
  max_distance_from_kanji_bottom : Z
}.

(** ** The [Word] dataclass *)

Module Word.

Record t : Type := mk {
  string : String.string;
  yb : Z;
  yt : Z;
  xl : Z;
  xr : Z;
  iskanji : bool
}.

(** [copy]: a new object with the same attribute values. *)
Definition copy (self : t) : t :=
  mk (string self) (yb self) (yt self) (xl self) (xr self) (iskanji self).

(** [merge]: the receiver after the two assignments. *)
Definition merge (self next : t) : t :=
  mk (string self +:+ string next) (yb self) (yt self) (xl self) (xr next)
     (iskanji self).

(** [str.encode('utf-8')] and [bytes.decode('utf-8')] on the
    representation of texts by their UTF-8 bytes. *)
Definition encode_utf8 (s : String.string) : list Byte.byte :=
  list_byte_of_string s.

Definition decode_utf8 (b : list Byte.byte) : String.string :=
  string_of_list_byte b.

(** The dict literal [{'string': ..., 'type': ...}]. *)
Definition to_yaml_dict (self : t) : gmap String.string String.string :=
  if iskanji self then
    <["type" := "kanji"]> (<["string" := string self]> ∅)
  else
    let string_encoded := decode_utf8 (encode_utf8 (string self)) in
    <["type" := "vocab"]> (<["string" := string_encoded]> ∅).

#[global] Instance inhabited : Inhabited t := populate (mk EmptyString 0 0 0 0 false).

#[global] Instance eq_dec : EqDecision t.
Proof. solve_decision. Defined.

End Word.

(** ** The Cloud Vision response, as far as the extractor reads it *)

Module Vision.

Record Symbol : Type := { text : string }.

Record Vertex : Type := { x : Z; y : Z }.

Record BoundingPoly : Type := { vertices : list Vertex }.

Record Word : Type := {
  symbols : list Symbol;
  bounding_box : BoundingPoly;
  confidence : QArith_base.Q
}.

Record Paragraph : Type := { words : list Word }.

Record Block : Type := { paragraphs : list Paragraph }.

Record Page : Type := { blocks : list Block }.

Record TextAnnotation : Type := { pages : list Page }.

Record AnnotateFileResponse : Type := { full_text_annotation : TextAnnotation }.

End Vision.

(** ** words_raw_from_response *)

(** Lines 81-96, the body of the innermost loop; [words_raw.append]
    returns the extended list. *)
Definition word_body (config : Config) (words_raw : list Word.t)
    (word : Vision.Word) : result (list Word.t) :=
  let word_text := String.concat EmptyString (map Vision.text (Vision.symbols word)) in
  let bbox := Vision.bounding_box word in
  v2 ← index (Vision.vertices bbox) 2;
  v0 ← index (Vision.vertices bbox) 0;
  let bheight := Z.abs (Vision.y v2 - Vision.y v0) in
  let iskanji := false in
  if QArith_base.Qle_bool (min_confidence config) (Vision.confidence word)
     && (bheight >=? min_word_height config) then
    let iskanji := if bheight >=? min_kanji_height config then true else iskanji in
    v1 ← index (Vision.vertices bbox) 1;
    Ok (words_raw ++ [Word.mk word_text (Vision.y v2) (Vision.y v0)
                        (Vision.x v0) (Vision.x v1) iskanji])
  else Ok words_raw.

Definition words_raw_from_response (response : Vision.AnnotateFileResponse)
    (config : Config) : result (list Word.t) :=
  for_each (Vision.pages (Vision.full_text_annotation response))
    (fun words_raw page =>
       for_each (Vision.blocks page)
         (fun words_raw block =>
            for_each (Vision.paragraphs block)
              (fun words_raw paragraph =>
                 for_each (Vision.words paragraph) (word_body config) words_raw)
              words_raw)
         words_raw)
    [].


(** ** The pattern [[A-Za-z0-9/-]] and [re.match] *)

Inductive class_item : Type :=
| Range (lo hi : ascii)
| Lit (c : ascii).

Definition item_matches (c : ascii) (it : class_item) : bool :=
  match it with
  | Range lo hi =>
      N.leb (N_of_ascii lo) (N_of_ascii c) && N.leb (N_of_ascii c) (N_of_ascii hi)
  | Lit d => Ascii.eqb c d
  end.

(** A pattern that is one character class; [re.match] anchors it at the
    start of the text and looks at one character. *)
Definition re_match (cls : list class_item) (s : string) : bool :=
  match s with
  | EmptyString => false
  | String c _ => existsb (item_matches c) cls
  end.

Definition regex : list class_item :=
  [Range "A" "Z"; Range "a" "z"; Range "0" "9"; Lit "/"; Lit "-"].

(** Line 105.  The comprehension builds a new list of the surviving
    objects. *)
Definition latin_filter (words_raw : list Word.t) : list Word.t :=
  List.filter (fun w => negb (re_match regex (Word.string w))) words_raw.

(** ** The object store

    The surviving raw words are read and never written, so the store
    starts as that list and [words_raw[i]] is the reference [i]; [copy]
    allocates a new cell and [merge] overwrites the receiver's cell. *)

Abbreviation ref := nat (only parsing).
Abbreviation heap := (list Word.t) (only parsing).

Definition alloc (h : heap) (w : Word.t) : heap * ref := (h ++ [w], length h).

Definition deref (h : heap) (a : ref) : Word.t := h !!! a.

Definition update (h : heap) (a : ref) (w : Word.t) : heap := <[a := w]> h.

(** ** merge_and_filter_words, lines 107-127: the sequential merge *)

Record merge_state : Type := {
  hp : heap;
  words : list ref;
  buffer : ref;
  buffer_set : bool
}.

(** Lines 111-123, one iteration of the loop. *)
Definition merge_body (config : Config) (words_raw : list ref)
    (st : merge_state) (idx : nat) : result merge_state :=
  cur ← index words_raw idx;
  if Bool.eqb (Word.iskanji (deref (hp st) cur)) true then
    let '(h, c) := alloc (hp st) (Word.copy (deref (hp st) cur)) in
    Ok {| hp := h; words := words st ++ [c]; buffer := buffer st;
          buffer_set := false |}
  else
    let '(h, buf) :=
      if Bool.eqb (buffer_set st) false
      then alloc (hp st) (Word.copy (deref (hp st) cur))
      else (hp st, buffer st) in
    nxt ← index words_raw (idx + 1);
    if Z.abs (Word.xl (deref h nxt) - Word.xr (deref h cur))
         <=? min_interword_distance config then
      Ok {| hp := update h buf (Word.merge (deref h buf) (deref h nxt));
            words := words st; buffer := buf; buffer_set := true |}
    else
      Ok {| hp := h; words := words st ++ [buf]; buffer := buf;
            buffer_set := false |}.

(** Lines 124-127, after the loop. *)
Definition merge_flush (words_raw : list ref) (st : merge_state)
  : result (heap * list ref) :=
  if Bool.eqb (buffer_set st) true then Ok (hp st, words st ++ [buffer st])
  else lst ← index_last words_raw; Ok (hp st, words st ++ [lst]).

(** Lines 107-109: the state before the loop. *)
Definition merge_init (h : heap) (words_raw : list ref) : result merge_state :=
  first ← index words_raw 0;
  let '(h, buf) := alloc h (Word.copy (deref h first)) in
  Ok {| hp := h; words := []; buffer := buf; buffer_set := false |}.

Definition merge_pass (config : Config) (h : heap) (words_raw : list ref)
  : result (heap * list ref) :=
  st ← merge_init h words_raw;
  st ← for_each (seq 0 (length words_raw - 1)) (merge_body config words_raw) st;
  merge_flush words_raw st.

(** ** merge_and_filter_words, lines 129-140: grouping by kanji *)

Definition group_inner (h : heap) (kanjit kanjib : Z)
    (queries : list ref) (k : ref) : list ref :=
  if (Word.yt (deref h k) >=? kanjit) && (Word.yb (deref h k) <=? kanjib)
     && Bool.eqb (Word.iskanji (deref h k)) false
  then queries ++ [k] else queries.

Definition group_body (config : Config) (h : heap) (words : list ref)
    (queries : list ref) (word : ref) : list ref :=
  if Bool.eqb (Word.iskanji (deref h word)) true then
    let queries := queries ++ [word] in
    let kanjit := Word.yt (deref h word) - max_distance_from_kanji_top config in
    let kanjib := Word.yb (deref h word) + max_distance_from_kanji_bottom config in
    fold_left (group_inner h kanjit kanjib) words queries
  else queries.

Definition group_pass (config : Config) (h : heap) (words : list ref)
  : list ref :=
  fold_left (group_body config h words) words [].

(** ** merge_and_filter_words *)

(** The list [words] as it stands at line 128, read out of the store;
    [words_raw] is the list after line 105. *)
Definition merged_words (config : Config) (words_raw : list Word.t)
  : result (list Word.t) :=
  '(h, words) ← merge_pass config words_raw (seq 0 (length words_raw));
  Ok (map (deref h) words).

(** Lines 107-140 on the list left by line 105. *)
Definition merge_and_group (config : Config) (words_raw : list Word.t)
  : result (list Word.t) :=
  '(h, words) ← merge_pass config words_raw (seq 0 (length words_raw));
  Ok (map (deref h) (group_pass config h words)).

Definition merge_and_filter_words (words_raw : list Word.t) (config : Config)
  : result (list Word.t) :=
  let words_raw := latin_filter words_raw in
  merge_and_group config words_raw.

(** ** main, lines 175-176: the records handed to [yaml.dump] *)

Definition dump_records (queries : list Word.t)
  : list (gmap string string) :=
  map Word.to_yaml_dict queries.

(** ** main, lines 169-176

    The configuration and the response are what [read_config] and
    [cloud_vision_read] return; the value computed here is the list
    handed to [yaml.dump]. *)
Definition main_dump (response : Vision.AnnotateFileResponse)
    (config : Config) : result (list (gmap string string)) :=
  words_raw ← words_raw_from_response response config;
  queries ← merge_and_filter_words words_raw config;
  Ok (dump_records queries).

(** ** Sample data

    A configuration, a response and raw word lists on which the
    definitions are evaluated. *)

Definition sample_config : Config :=
  {| min_confidence := QArith_base.Qmake 1 2;
     min_word_height := 5;
     min_kanji_height := 25;
     min_interword_distance := 2;
     max_distance_from_kanji_top := 3;
     max_distance_from_kanji_bottom := 3 |}.

(** The axis-parallel quadrilateral with corners listed clockwise from
    the top left one. *)
Definition box (x0 y0 x1 y1 : Z) : Vision.BoundingPoly :=
  {| Vision.vertices :=
       [ {| Vision.x := x0; Vision.y := y0 |};
         {| Vision.x := x1; Vision.y := y0 |};
         {| Vision.x := x1; Vision.y := y1 |};
         {| Vision.x := x0; Vision.y := y1 |} ] |}.

Definition ocr_word (glyphs : list string) (b : Vision.BoundingPoly)
    (conf : QArith_base.Q) : Vision.Word :=
  {| Vision.symbols := map Vision.Build_Symbol glyphs;
     Vision.bounding_box := b;
     Vision.confidence := conf |}.

Definition sample_response : Vision.AnnotateFileResponse :=
  {| Vision.full_text_annotation :=
       {| Vision.pages :=
            [ {| Vision.blocks :=
                   [ {| Vision.paragraphs :=
                          [ {| Vision.words :=
                                 [ ocr_word ["漢"] (box 0 0 30 30)
                                     (QArith_base.Qmake 98 100);
                                   ocr_word ["3"; "D"] (box 40 0 70 30)
                                     (QArith_base.Qmake 99 100) ] |};
                            {| Vision.words :=
                                 [ ocr_word ["か"; "ん"] (box 0 20 20 32)
                                     (QArith_base.Qmake 9 10);
                                   ocr_word ["じ"] (box 21 20 30 32)
                                     (QArith_base.Qmake 8 10);
                                   ocr_word ["の"] (box 60 20 70 32)
                                     (QArith_base.Qmake 3 10);
                                   ocr_word ["、"] (box 71 29 73 32)
                                     (QArith_base.Qmake 9 10) ] |} ] |} ] |} ] |} |}.

(** The scenario of the specification: two kanji and two fragments of
    one vocabulary word. *)
Definition scenario_config : Config :=
  {| min_confidence := QArith_base.Qmake 1 2;
     min_word_height := 5;
     min_kanji_height := 10;
     min_interword_distance := 2;
     max_distance_from_kanji_top := 3;
     max_distance_from_kanji_bottom := 3 |}.

Definition scenario_words : list Word.t :=
  [ Word.mk "漢" 10 0 0 10 true;
    Word.mk "字" 10 0 12 22 true;
    Word.mk "かん" 20 12 0 5 false;
    Word.mk "じ" 20 12 6 9 false ].

(** A vocabulary word directly followed, within the merge distance, by
    a kanji that is not the last word. *)
Definition discard_words : list Word.t :=
  [ Word.mk "あ" 32 20 0 10 false;
    Word.mk "漢" 30 0 11 41 true;
    Word.mk "い" 32 20 50 60 false ].

(** A vocabulary word directly followed, within the merge distance, by
    a kanji that is the last word. *)
Definition trailing_kanji_words : list Word.t :=
  [ Word.mk "漢" 30 0 0 30 true;
    Word.mk "あ" 32 20 40 50 false;
    Word.mk "字" 30 0 51 81 true ].

(** * Vocabulary of the specification *)

(** ** Extractor *)

(** The candidate words in the response's traversal order. *)
Definition candidates (response : Vision.AnnotateFileResponse)
  : list Vision.Word :=
  page ← Vision.pages (Vision.full_text_annotation response);
  block ← Vision.blocks page;
  paragraph ← Vision.paragraphs block;
  Vision.words paragraph.

(** The service reports a quadrilateral; the extractor reads its corners
    0, 1 and 2. *)
Definition has_corners (word : Vision.Word) : Prop :=
  (3 <= length (Vision.vertices (Vision.bounding_box word)))%nat.

Definition corner (word : Vision.Word) (i : nat) : Vision.Vertex :=
  default {| Vision.x := 0; Vision.y := 0 |}
    (Vision.vertices (Vision.bounding_box word) !! i).

(** |vertices[2].y - vertices[0].y| *)
Definition bbox_height (word : Vision.Word) : Z :=
  Z.abs (Vision.y (corner word 2) - Vision.y (corner word 0)).

Definition discarded (config : Config) (word : Vision.Word) : Prop :=
  QArith_base.Qlt (Vision.confidence word) (min_confidence config)
  \/ bbox_height word < min_word_height config.

(** The record made of a retained candidate. *)
Definition word_of (config : Config) (word : Vision.Word) : Word.t :=
  {| Word.string := String.concat EmptyString (map Vision.text (Vision.symbols word));
     Word.yb := Vision.y (corner word 2);
     Word.yt := Vision.y (corner word 0);
     Word.xl := Vision.x (corner word 0);
     Word.xr := Vision.x (corner word 1);
     Word.iskanji := bool_decide (min_kanji_height config <= bbox_height word) |}.

(** Height of the box of a [Word] record: |yb - yt|. *)
Definition height (w : Word.t) : Z := Z.abs (Word.yb w - Word.yt w).

#[global] Instance Qlt_dec (p q : QArith_base.Q) : Decision (QArith_base.Qlt p q) :=
  match QArith_base.Qlt_le_dec p q with
  | left H => left H
  | right H => right (QArith_base.Qle_not_lt _ _ H)
  end.

#[global] Instance discarded_dec config word : Decision (discarded config word).
Proof. unfold discarded. apply _. Defined.

(** ** Latin/numeric filter *)

(** The characters of the class: A-Z, a-z, 0-9, slash and hyphen, by
    their codes. *)
Definition in_class (c : ascii) : Prop :=
  let code := N_of_ascii c in
  (65 <= code <= 90 \/ 97 <= code <= 122 \/ 48 <= code <= 57
   \/ code = 47 \/ code = 45)%N.

Definition begins_latin (s : string) : Prop :=
  match s with
  | EmptyString => False
  | String c _ => in_class c
  end.

#[global] Instance in_class_dec c : Decision (in_class c).
Proof. unfold in_class. cbv zeta. apply _. Defined.

#[global] Instance begins_latin_dec s : Decision (begins_latin s).
Proof. destruct s; cbn; apply _. Defined.

(** ** Merge and grouping *)

Definition is_kanji (w : Word.t) : Prop := Word.iskanji w = true.

#[global] Instance is_kanji_dec w : Decision (is_kanji w).
Proof. unfold is_kanji. apply _. Defined.

(** The vertical band of [k] lies within the expanded window of [kanji]. *)
Definition within_window (config : Config) (kanji k : Word.t) : Prop :=
  Word.yt kanji - max_distance_from_kanji_top config <= Word.yt k
  /\ Word.yb k <= Word.yb kanji + max_distance_from_kanji_bottom config.

#[global] Instance within_window_dec config kanji k :
  Decision (within_window config kanji k).
Proof. unfold within_window. apply _. Defined.

(** For each kanji of [words], in order: the kanji, then the non-kanji
    words of [words] inside its window, in order. *)
Definition grouped (config : Config) (words : list Word.t) : list Word.t :=
  kanji ← filter is_kanji words;
  kanji :: filter (fun k => ~ is_kanji k /\ within_window config kanji k) words.

(** The horizontal gap test of line 118. *)
Definition near (config : Config) (w w' : Word.t) : bool :=
  Z.abs (Word.xl w' - Word.xr w) <=? min_interword_distance config.

(** The merge pass on values: the pending buffer is [Some b] while
    [buffer_set] holds. *)
Fixpoint merge_from (config : Config) (buf : option Word.t)
    (ws : list Word.t) : list Word.t :=
  match ws with
  | [] => []
  | w :: rest =>
      match rest with
      | [] => [default w buf]
      | w' :: _ =>
          if Word.iskanji w then w :: merge_from config None rest
          else if near config w w'
               then merge_from config (Some (Word.merge (default w buf) w')) rest
               else default w buf :: merge_from config None rest
      end
  end.

(** The word a run of fragments merges into. *)
Definition merge_run (first : Word.t) (rest : list Word.t) : Word.t :=
  fold_left Word.merge rest first.

(** Every word of [rest] is within the merge distance of the word
    before it, starting from [w]. *)
Fixpoint chained (config : Config) (w : Word.t) (rest : list Word.t) : Prop :=
  match rest with
  | [] => True
  | w' :: rest' => near config w w' = true /\ chained config w' rest'
  end.

(** [m] is what a contiguous stretch [first :: rest] of [full] merges
    into. *)
Definition is_slice (full : list Word.t) (m : Word.t) : Prop :=
  exists pre first rest post,
    full = pre ++ first :: rest ++ post /\ m = merge_run first rest.

(** [follows config cur qs]: walking [qs] with [cur] the most recent
    kanji seen, every non-kanji word lies in the window of [cur]. *)
Fixpoint follows (config : Config) (cur : option Word.t)
    (qs : list Word.t) : Prop :=
  match qs with
  | [] => True
  | w :: qs' =>
      if Word.iskanji w then follows config (Some w) qs'
      else (exists k, cur = Some k /\ within_window config k w)
           /\ follows config cur qs'
  end.

(** ** Invariant of the merge loop on the store

    The surviving input objects are never written; every reference put
    in [words] and the buffer itself were allocated by the pass; a buffer
    that is still being extended is not yet in [words]. *)
Record inv (ws : list Word.t) (st : merge_state) : Prop := {
  inv_base : take (length ws) (hp st) = ws;
  inv_words :
    Forall (fun a => (length ws <= a < length (hp st))%nat) (words st);
  inv_buffer : (length ws <= buffer st < length (hp st))%nat;
  inv_fresh : buffer_set st = true -> buffer st ∉ words st
}.

Definition values (st : merge_state) : list Word.t :=
  map (deref (hp st)) (words st).

Definition pending (st : merge_state) : option Word.t :=
  if buffer_set st then Some (deref (hp st) (buffer st)) else None.

Definition read_out (r : list Word.t * list ref) : list Word.t :=
  map (deref r.1) r.2.

(** * Properties *)

(** ** Basic facts *)

Lemma copy_eq (w : Word.t) : Word.copy w = w.
Proof. by destruct w. Qed.

Lemma index_seq (n i : nat) : (i < n)%nat -> index (seq 0 n) i = Ok i.
Proof. intros Hi. unfold index. by rewrite lookup_seq_lt. Qed.

Lemma index_last_seq (n : nat) : index_last (seq 0 (S n)) = Ok n.
Proof.
  unfold index_last.
  by rewrite last_lookup, length_seq, lookup_seq_lt by (simpl; lia).
Qed.

Lemma for_each_app {S X} (xs ys : list X) (body : S -> X -> result S) s :
  for_each (xs ++ ys) body s = for_each xs body s ≫= for_each ys body.
Proof.
  revert s. induction xs as [|x xs IH]; intros s; cbn; [done|].
  destruct (body s x); cbn; [apply IH|done].
Qed.

Lemma filter_bool {A} (f : A -> bool) (P : A -> Prop)
    `{!forall a, Decision (P a)} (l : list A) :
  (forall a, f a = true <-> P a) -> List.filter f l = filter P l.
Proof.
  intros Hf. induction l as [|a l IH]; cbn [List.filter]; [done|].
  rewrite filter_cons, IH. pose proof (Hf a) as Ha.
  destruct (f a); case_decide; intuition congruence.
Qed.

Lemma merge_from_cons config buf w w' tl :
  merge_from config buf (w :: w' :: tl) =
  if Word.iskanji w then w :: merge_from config None (w' :: tl)
  else if near config w w'
       then merge_from config (Some (Word.merge (default w buf) w')) (w' :: tl)
       else default w buf :: merge_from config None (w' :: tl).
Proof. reflexivity. Qed.

(** ** The merge pass on the store computes [merge_from] *)

Section MergeRefinement.

Variable config : Config.
Variable ws : list Word.t.

Local Abbreviation n := (length ws).
Local Abbreviation raw := (seq 0 (length ws)).

Lemma inv_length st : inv ws st -> (n <= length (hp st))%nat.
Proof. intros [_ _ ? _]. lia. Qed.

Lemma inv_read st i : inv ws st -> (i < n)%nat -> deref (hp st) i = ws !!! i.
Proof.
  intros Hinv Hi. unfold deref.
  rewrite !list_lookup_total_alt. f_equal.
  rewrite <- (lookup_take_lt (hp st) n i) by done.
  by rewrite (inv_base _ _ Hinv).
Qed.

Lemma deref_alloc_old (h : list Word.t) w a :
  (a < length h)%nat -> deref (h ++ [w]) a = deref h a.
Proof. intros. unfold deref. by rewrite lookup_total_app_l. Qed.

Lemma deref_alloc_new (h : list Word.t) w : deref (h ++ [w]) (length h) = w.
Proof. unfold deref. by rewrite list_lookup_total_middle. Qed.

Lemma map_deref_alloc (h : list Word.t) w (l : list ref) :
  Forall (fun a => (n <= a < length h)%nat) l ->
  map (deref (h ++ [w])) l = map (deref h) l.
Proof.
  induction 1 as [|a l Ha _ IH]; simpl; [done|].
  rewrite IH, deref_alloc_old; [done|lia].
Qed.

Lemma map_deref_update (h : list Word.t) b w (l : list ref) :
  b ∉ l -> map (deref (update h b w)) l = map (deref h) l.
Proof.
  induction l as [|a l IH]; simpl; [done|].
  intros Hb. apply not_elem_of_cons in Hb as [Hne Hb].
  rewrite IH by done. unfold deref, update.
  by rewrite list_lookup_total_insert_ne.
Qed.

Lemma drop_two i :
  (i + 1 < n)%nat ->
  drop i ws = ws !!! i :: ws !!! (i + 1)%nat :: drop (S (S i)) ws.
Proof.
  intros Hi.
  rewrite (drop_S ws (ws !!! i) i) by (apply list_lookup_lookup_total_lt; lia).
  rewrite (drop_S ws (ws !!! (i + 1)%nat) (S i)); [done|].
  replace (S i) with (i + 1)%nat by lia.
  apply list_lookup_lookup_total_lt; lia.
Qed.

Lemma inv_init :
  ws <> [] ->
  exists st, merge_init ws raw = Ok st /\ inv ws st
             /\ values st = [] /\ pending st = None.
Proof.
  intros Hne. unfold merge_init.
  assert (0 < n)%nat as Hn by (destruct ws; [done|cbn; lia]).
  rewrite index_seq by done. cbn [mbind result_bind alloc].
  eexists. split; [reflexivity|]. split; [|done].
  constructor; cbn.
  - by rewrite take_app_length.
  - constructor.
  - rewrite length_app. cbn. lia.
  - discriminate.
Qed.

#[local] Opaque merge_from.

(** One iteration keeps the invariant and moves the value-level walk
    one word forward. *)
Lemma merge_body_sound st i :
  inv ws st -> (i + 1 < n)%nat ->
  exists st',
    merge_body config raw st i = Ok st' /\ inv ws st' /\
    values st' ++ merge_from config (pending st') (drop (S i) ws)
    = values st ++ merge_from config (pending st) (drop i ws).
Proof.
  intros Hinv Hi.
  pose proof (inv_length _ Hinv) as Hlen.
  destruct Hinv as [Hbase Hwords Hbuf Hfresh].
  assert (Hinv : inv ws st) by (by constructor).
  rewrite (drop_two i Hi).
  replace (S i) with (i + 1)%nat by lia.
  rewrite (drop_S ws (ws !!! (i + 1)%nat) (i + 1)).
  2:{ apply list_lookup_lookup_total_lt; lia. }
  unfold merge_body.
  rewrite !index_seq by lia. cbn [mbind result_bind].
  rewrite (inv_read st i Hinv) by lia.
  rewrite merge_from_cons.
  assert (Hgrow : forall w, Forall (fun a => (n <= a < length (hp st ++ [w]))%nat)
                              (words st)).
  { intros w. eapply Forall_impl; [exact Hwords|]. cbn. intros a Ha.
    rewrite length_app. cbn. lia. }
  destruct (Word.iskanji (ws !!! i)) eqn:Hk; cbn [Bool.eqb].
  - eexists. split; [reflexivity|]. unfold values, pending; cbn. split.
    + constructor; cbn.
      * by rewrite take_app_le.
      * apply Forall_app. split; [done|].
        constructor; [|constructor]. rewrite length_app. cbn. lia.
      * rewrite length_app. cbn. lia.
      * discriminate.
    + rewrite map_app, map_deref_alloc by done. cbn.
      rewrite deref_alloc_new, copy_eq, <- app_assoc. done.
  - unfold near. destruct (buffer_set st) eqn:Hbs; cbn [Bool.eqb alloc].
    + rewrite !(inv_read st _ Hinv) by lia.
      destruct (Z.abs _ <=? _); (eexists; split; [reflexivity|]);
        unfold values, pending; cbn; rewrite Hbs; cbn.
      * split.
        -- constructor; cbn; unfold update.
           ++ by rewrite take_insert_ge by lia.
           ++ by rewrite length_insert.
           ++ rewrite length_insert. lia.
           ++ intros _. by apply Hfresh.
        -- rewrite map_deref_update by (by apply Hfresh).
           unfold deref, update.
           rewrite list_lookup_total_insert_eq by lia. done.
      * split.
        -- constructor; cbn; [done| |done|discriminate].
           apply Forall_app. split; [done|]. by constructor.
        -- by rewrite map_app, <- app_assoc.
    + rewrite !deref_alloc_old by lia.
      rewrite !(inv_read st _ Hinv) by lia.
      rewrite deref_alloc_new, copy_eq.
      destruct (Z.abs _ <=? _); (eexists; split; [reflexivity|]);
        unfold values, pending; cbn; rewrite Hbs; cbn.
      * split.
        -- constructor; cbn; unfold update.
           ++ rewrite take_insert_ge by lia. by rewrite take_app_le.
           ++ rewrite length_insert. done.
           ++ rewrite length_insert, length_app. cbn. lia.
           ++ intros _ Hin.
              apply (proj1 (Forall_forall _ _) Hwords) in Hin. lia.
        -- rewrite map_deref_update.
           2:{ intros Hin. apply (proj1 (Forall_forall _ _) Hwords) in Hin. lia. }
           rewrite map_deref_alloc by done.
           unfold deref, update.
           rewrite list_lookup_total_insert_eq by (rewrite length_app; cbn; lia).
           done.
      * split.
        -- constructor; cbn.
           ++ by rewrite take_app_le.
           ++ apply Forall_app. split; [done|].
              constructor; [|constructor]. rewrite length_app. cbn. lia.
           ++ rewrite length_app. cbn. lia.
           ++ discriminate.
        -- rewrite map_app, map_deref_alloc by done. cbn.
           by rewrite deref_alloc_new, <- app_assoc.
Qed.

#[local] Transparent merge_from.

Lemma merge_loop_sound k : forall i st,
  (i + k + 1 = n)%nat -> inv ws st ->
  read_out <$> (st' ← for_each (seq i k) (merge_body config raw) st;
                merge_flush raw st')
  = Ok (values st ++ merge_from config (pending st) (drop i ws)).
Proof.
  induction k as [|k IH]; intros i st Hik Hinv.
  - cbn [seq for_each mbind result_bind].
    assert (Hdrop : drop i ws = [ws !!! i]).
    { rewrite (drop_S ws (ws !!! i) i) by (apply list_lookup_lookup_total_lt; lia).
      by rewrite drop_ge by lia. }
    rewrite Hdrop. unfold merge_flush, values, pending.
    destruct (buffer_set st); cbn.
    + by rewrite map_app.
    + replace n with (S i) by lia. rewrite index_last_seq. cbn.
      rewrite map_app. cbn. rewrite (inv_read st i Hinv) by lia. done.
  - cbn [seq for_each].
    destruct (merge_body_sound st i Hinv) as (st' & Hstep & Hinv' & Heq); [lia|].
    rewrite Hstep. cbn [mbind result_bind].
    rewrite <- Heq. apply IH; [lia|done].
Qed.

Lemma merge_pass_sound :
  ws <> [] ->
  read_out <$> merge_pass config ws raw = Ok (merge_from config None ws).
Proof.
  intros Hne. unfold merge_pass.
  assert (0 < n)%nat as Hn by (destruct ws; [done|cbn; lia]).
  destruct (inv_init Hne) as (st & -> & Hinv & Hv & Hp).
  cbn [mbind result_bind]. rewrite length_seq.
  rewrite (merge_loop_sound (n - 1) 0 st); [|lia|done].
  by rewrite Hv, Hp.
Qed.

End MergeRefinement.

Lemma merge_pass_empty config : merge_pass config [] (seq 0 0) = Raise IndexError.
Proof. reflexivity. Qed.

(** ** The grouping loops compute [grouped] *)

Lemma group_inner_sound (h : list Word.t) config kanji (words : list ref) :
  forall queries,
    map (deref h)
      (fold_left (group_inner h
                    (Word.yt kanji - max_distance_from_kanji_top config)
                    (Word.yb kanji + max_distance_from_kanji_bottom config))
         words queries)
    = map (deref h) queries
      ++ filter (fun k => ~ is_kanji k /\ within_window config kanji k)
           (map (deref h) words).
Proof.
  induction words as [|k words IH]; intros queries; cbn [fold_left map].
  - by rewrite filter_nil, app_nil_r.
  - rewrite IH, filter_cons. unfold group_inner.
    rewrite Z.geb_leb.
    case_decide as Hd; unfold is_kanji, within_window in Hd.
    + destruct Hd as (Hk & Ht & Hb).
      apply not_true_is_false in Hk. rewrite Hk.
      apply Z.leb_le in Ht, Hb. rewrite Ht, Hb. cbn.
      by rewrite map_app, <- app_assoc.
    + destruct (Word.iskanji (deref h k)) eqn:Hk; cbn [Bool.eqb].
      * by rewrite andb_false_r.
      * rewrite andb_true_r.
        destruct (Z.leb_spec (Word.yt kanji - max_distance_from_kanji_top config)
                    (Word.yt (deref h k)));
        destruct (Z.leb_spec (Word.yb (deref h k))
                    (Word.yb kanji + max_distance_from_kanji_bottom config));
        cbn; try done.
        exfalso. apply Hd. repeat split; [congruence|done|done].
Qed.

Lemma group_pass_sound (h : list Word.t) config (words : list ref) :
  map (deref h) (group_pass config h words) = grouped config (map (deref h) words).
Proof.
  unfold group_pass, grouped.
  enough (forall l queries,
    map (deref h) (fold_left (group_body config h words) l queries)
    = map (deref h) queries
      ++ (kanji ← filter is_kanji (map (deref h) l);
          kanji :: filter (fun k => ~ is_kanji k /\ within_window config kanji k)
                     (map (deref h) words))) as H
    by apply (H words []).
  induction l as [|w l IH]; intros queries; cbn [fold_left map].
  - by rewrite filter_nil, app_nil_r.
  - rewrite IH, filter_cons. unfold group_body.
    case_decide as Hd; unfold is_kanji in Hd.
    + rewrite Hd. cbn [Bool.eqb].
      rewrite group_inner_sound, map_app, bind_cons. cbn [map app].
      by rewrite <- !app_assoc.
    + apply not_true_is_false in Hd. by rewrite Hd.
Qed.

(** ** What the passes return *)

Lemma merged_words_eq config ws :
  merged_words config ws =
  match ws with
  | [] => Raise IndexError
  | _ => Ok (merge_from config None ws)
  end.
Proof.
  unfold merged_words. destruct ws as [|w ws]; [done|].
  pose proof (merge_pass_sound config (w :: ws) ltac:(done)) as H.
  destruct (merge_pass config (w :: ws) (seq 0 (length (w :: ws))))
    as [[h words]|e]; cbn in *; [|done].
  by rewrite <- H.
Qed.

Lemma merge_and_group_eq config ws :
  merge_and_group config ws = grouped config <$> merged_words config ws.
Proof.
  unfold merge_and_group, merged_words.
  destruct (merge_pass _ _ _) as [[h words]|e]; cbn; [|done].
  by rewrite group_pass_sound.
Qed.

Lemma merge_and_filter_words_eq words_raw config :
  merge_and_filter_words words_raw config =
  match latin_filter words_raw with
  | [] => Raise IndexError
  | ws => Ok (grouped config (merge_from config None ws))
  end.
Proof.
  unfold merge_and_filter_words.
  rewrite merge_and_group_eq, merged_words_eq.
  by destruct (latin_filter words_raw).
Qed.

(** ** The Latin/numeric filter *)

Lemma in_class_spec c : existsb (item_matches c) regex = true <-> in_class c.
Proof.
  assert (Hcode : forall d, c = d <-> N_of_ascii c = N_of_ascii d).
  { intros d. split; [by intros ->|].
    intros H. by rewrite <- (ascii_N_embedding c), H, ascii_N_embedding. }
  unfold in_class, regex. cbn [existsb item_matches].
  rewrite !orb_true_iff, !andb_true_iff, !N.leb_le, !Ascii.eqb_eq.
  rewrite (Hcode "/"%char), (Hcode "-"%char).
  change (N_of_ascii "A") with 65%N. change (N_of_ascii "Z") with 90%N.
  change (N_of_ascii "a") with 97%N. change (N_of_ascii "z") with 122%N.
  change (N_of_ascii "0") with 48%N. change (N_of_ascii "9") with 57%N.
  change (N_of_ascii "/") with 47%N. change (N_of_ascii "-") with 45%N.
  cbv zeta. intuition discriminate.
Qed.

Lemma re_match_spec s : re_match regex s = true <-> begins_latin s.
Proof. destruct s as [|c s]; cbn [re_match begins_latin]; [done|apply in_class_spec]. Qed.

Lemma latin_filter_spec words_raw :
  latin_filter words_raw
  = filter (fun w => ~ begins_latin (Word.string w)) words_raw.
Proof.
  apply filter_bool. intros w.
  rewrite negb_true_iff, <- not_true_iff_false. by rewrite re_match_spec.
Qed.

(** C7.  Line 105 removes exactly the words whose text begins with a
    character of the class A-Z, a-z, 0-9, slash, hyphen, keeping the
    others in order; the merge and grouping passes run on what is left.
    Only the first character of the text decides, whatever the rest of
    the text and the other attributes of the word are. *)
Theorem latin_prefix_filter_first (words_raw : list Word.t) (config : Config) :
  merge_and_filter_words words_raw config
  = merge_and_group config
      (filter (fun w => ~ begins_latin (Word.string w)) words_raw)
  /\ (forall w, w ∈ latin_filter words_raw
                <-> w ∈ words_raw /\ ~ begins_latin (Word.string w))
  /\ (forall c rest rest', re_match regex (String c rest)
                           = re_match regex (String c rest'))
  /\ (forall c rest, begins_latin (String c rest) <-> in_class c)
  /\ ~ begins_latin EmptyString.
Proof.
  split; [|split; [|split; [|split]]].
  - unfold merge_and_filter_words. by rewrite latin_filter_spec.
  - intros w. rewrite latin_filter_spec, list_elem_of_filter. tauto.
  - done.
  - done.
  - intros [].
Qed.

(** C4.  When no word survives the Latin/numeric filter (in particular
    on an empty input) the function raises: indexing the empty list at
    line 109 is an IndexError, and no result is returned. *)
Theorem empty_after_filter_raises (words_raw : list Word.t) (config : Config) :
  Forall (fun w => begins_latin (Word.string w)) words_raw ->
  merge_and_filter_words words_raw config = Raise IndexError.
Proof.
  intros Hall.
  assert (latin_filter words_raw = []) as Hnil.
  { rewrite latin_filter_spec.
    induction Hall as [|w l Hw _ IH]; [done|].
    rewrite filter_cons. by case_decide. }
  by rewrite merge_and_filter_words_eq, Hnil.
Qed.

Lemma empty_after_filter_raises_witness :
  Forall (fun w => begins_latin (Word.string w))
    [Word.mk "3D" 40 10 0 30 true; Word.mk "-" 20 10 31 35 false]
  /\ merge_and_filter_words
       [Word.mk "3D" 40 10 0 30 true; Word.mk "-" 20 10 31 35 false]
       {| min_confidence := QArith_base.Qmake 1 2; min_word_height := 5;
          min_kanji_height := 25; min_interword_distance := 2;
          max_distance_from_kanji_top := 3;
          max_distance_from_kanji_bottom := 3 |}
     = Raise IndexError.
Proof.
  split.
  - repeat constructor; cbn; unfold in_class; cbn; lia.
  - apply empty_after_filter_raises.
    repeat constructor; cbn; unfold in_class; cbn; lia.
Defined.

(** C2.  The returned list is, for each kanji of the merged list in
    order, that kanji followed by exactly the non-kanji merged words
    whose band [yt, yb] lies within
    [kanji.yt - max_distance_from_kanji_top,
     kanji.yb + max_distance_from_kanji_bottom], in merged-list order;
    the scan restarts over the whole merged list for every kanji, so a
    word in the window of several kanji is listed once for each. *)
Theorem queries_are_kanji_groups (words_raw : list Word.t) (config : Config) :
  merge_and_filter_words words_raw config
  = (fun words =>
       kanji ← filter is_kanji words;
       kanji :: filter (fun k => ~ is_kanji k /\ within_window config kanji k)
                  words)
    <$> merged_words config (latin_filter words_raw).
Proof. unfold merge_and_filter_words. apply merge_and_group_eq. Qed.

(** ** Shape of the query list *)

Lemma merge_from_no_kanji config ws : forall buf,
  Forall (fun w => ~ is_kanji w) ws ->
  (forall b, buf = Some b -> ~ is_kanji b) ->
  Forall (fun w => ~ is_kanji w) (merge_from config buf ws).
Proof.
  induction ws as [|w ws IH]; intros buf Hws Hbuf; [constructor|].
  apply Forall_cons in Hws as [Hw Hws].
  assert (~ is_kanji (default w buf)) as Hd.
  { destruct buf as [b|]; cbn; [by apply Hbuf|done]. }
  destruct ws as [|w' ws]; [by repeat constructor|].
  rewrite merge_from_cons.
  unfold is_kanji in Hw. apply not_true_is_false in Hw. rewrite Hw.
  destruct (near config w w').
  - apply IH; [done|]. intros b [= <-]. exact Hd.
  - constructor; [done|]. by apply IH.
Qed.

Lemma grouped_no_kanji config words :
  Forall (fun w => ~ is_kanji w) words -> grouped config words = [].
Proof.
  intros Hall. unfold grouped.
  replace (filter is_kanji words) with (@nil Word.t); [done|].
  symmetry. induction Hall as [|w l Hw _ IH]; [done|].
  by rewrite filter_cons_False.
Qed.

Lemma grouped_head config words q rest :
  grouped config words = q :: rest -> is_kanji q.
Proof.
  unfold grouped.
  destruct (filter is_kanji words) as [|k ks] eqn:Hf; [done|].
  rewrite bind_cons. intros [= <- _].
  assert (k ∈ filter is_kanji words) as Hin by (rewrite Hf; left).
  by apply list_elem_of_filter in Hin as [? _].
Qed.

Lemma follows_app_vocab config k vs rest :
  Forall (fun v => ~ is_kanji v /\ within_window config k v) vs ->
  follows config (Some k) rest ->
  follows config (Some k) (vs ++ rest).
Proof.
  induction 1 as [|v vs [Hv Hw] _ IH]; intros Hrest; [done|].
  cbn. unfold is_kanji in Hv. apply not_true_is_false in Hv. rewrite Hv.
  split; [by exists k|by apply IH].
Qed.

Lemma follows_grouped config words cur : follows config cur (grouped config words).
Proof.
  unfold grouped.
  assert (Forall is_kanji (filter is_kanji words)) as Hks.
  { apply Forall_forall. intros k Hk. by apply list_elem_of_filter in Hk as [? _]. }
  revert cur. induction Hks as [|k ks Hk _ IH]; intros cur; [done|].
  rewrite bind_cons. cbn. rewrite Hk.
  apply follows_app_vocab; [|apply IH].
  apply Forall_forall. intros v Hv. by apply list_elem_of_filter in Hv as [? _].
Qed.

Lemma follows_lookup config qs : forall cur i w,
  follows config cur qs -> qs !! i = Some w -> ~ is_kanji w ->
  exists k, from_option Some cur (last (filter is_kanji (take i qs))) = Some k
            /\ within_window config k w.
Proof.
  induction qs as [|x qs IH]; intros cur i w Hf Hi Hw; [done|].
  destruct i as [|i]; cbn in Hi.
  - injection Hi as ->. cbn in Hf.
    unfold is_kanji in Hw. apply not_true_is_false in Hw. rewrite Hw in Hf.
    destruct Hf as [(k & -> & Hk) _]. by exists k.
  - cbn [take]. rewrite filter_cons. cbn in Hf. case_decide as Hx.
    + rewrite Hx in Hf.
      destruct (IH (Some x) i w Hf Hi Hw) as (k & Hk & Hwin).
      exists k. split; [|done]. rewrite last_cons.
      by destruct (last (filter is_kanji (take i qs))).
    + unfold is_kanji in Hx. apply not_true_is_false in Hx. rewrite Hx in Hf.
      destruct Hf as [_ Hf]. by apply (IH cur i w).
Qed.

(** C9.  On a non-empty filtered input the function returns a query
    list; if the list is not empty its first word is a kanji, and every
    non-kanji word in it lies in the expanded vertical window of the
    last kanji that precedes it in the list; when the filtered input
    holds no kanji the query list is empty. *)
Theorem queries_follow_their_kanji (words_raw : list Word.t) (config : Config) :
  latin_filter words_raw <> [] ->
  exists queries,
    merge_and_filter_words words_raw config = Ok queries
    /\ (forall q rest, queries = q :: rest -> is_kanji q)
    /\ (forall i w, queries !! i = Some w -> ~ is_kanji w ->
          exists kanji,
            last (filter is_kanji (take i queries)) = Some kanji
            /\ within_window config kanji w)
    /\ (Forall (fun w => ~ is_kanji w) (latin_filter words_raw) -> queries = []).
Proof.
  intros Hne. rewrite merge_and_filter_words_eq.
  destruct (latin_filter words_raw) as [|w0 ws] eqn:Hf; [done|].
  eexists. split; [reflexivity|]. split; [|split].
  - intros q rest. apply grouped_head.
  - intros i w Hi Hw.
    destruct (follows_lookup config _ None i w (follows_grouped _ _ _) Hi Hw)
      as (k & Hk & Hwin).
    exists k. split; [|done].
    by destruct (last _).
  - intros Hall. apply grouped_no_kanji, merge_from_no_kanji; done.
Qed.

Lemma queries_follow_their_kanji_witness :
  latin_filter discard_words <> []
  /\ exists queries,
       merge_and_filter_words discard_words sample_config = Ok queries
       /\ (forall q rest, queries = q :: rest -> is_kanji q)
       /\ (forall i w, queries !! i = Some w -> ~ is_kanji w ->
             exists kanji,
               last (filter is_kanji (take i queries)) = Some kanji
               /\ within_window sample_config kanji w)
       /\ (Forall (fun w => ~ is_kanji w) (latin_filter discard_words) ->
           queries = []).
Proof.
  split; [discriminate|].
  apply queries_follow_their_kanji. discriminate.
Defined.

(** ** The extractor *)

Section Extractor.

Variable config : Config.

(** The records of the candidates that pass the two thresholds. *)
Local Abbreviation kept l :=
  (word_of config <$> filter (fun w => ~ discarded config w) l).

Lemma height_test (a b : Z) : (a >=? b) = bool_decide (b <= a).
Proof.
  rewrite Z.geb_leb.
  destruct (Z.leb_spec b a); [by rewrite bool_decide_true|].
  rewrite bool_decide_false; [done|lia].
Qed.

Lemma word_body_dec (words_raw : list Word.t) (word : Vision.Word) :
  has_corners word ->
  word_body config words_raw word
  = Ok (if decide (discarded config word) then words_raw
        else words_raw ++ [word_of config word]).
Proof.
  unfold has_corners, word_body, word_of, discarded, bbox_height, corner.
  destruct word as [syms [vs] conf]; cbn.
  destruct vs as [|v0 [|v1 [|v2 vs]]]; cbn; try lia. intros _.
  rewrite !height_test.
  destruct (QArith_base.Qle_bool _ conf) eqn:Hc; cbn.
  - apply QArith_base.Qle_bool_iff in Hc.
    case_bool_decide as Hh; cbn.
    + rewrite decide_False; [by case_bool_decide|].
      intros [Hlt|Hlt]; [by apply QArith_base.Qle_not_lt in Hc|lia].
    + rewrite decide_True; [done|right; lia].
  - rewrite decide_True; [done|]. left.
    apply QArith_base.Qnot_le_lt. intros Hle.
    apply QArith_base.Qle_bool_iff in Hle. congruence.
Qed.

Lemma word_body_kept (words_raw : list Word.t) (word : Vision.Word) :
  Forall has_corners [word] ->
  word_body config words_raw word = Ok (words_raw ++ kept [word]).
Proof.
  intros Hw. apply Forall_cons in Hw as [Hw _].
  rewrite word_body_dec by done.
  rewrite filter_cons, filter_nil.
  destruct (decide (discarded config word)).
  - rewrite decide_False by tauto. by rewrite app_nil_r.
  - by rewrite decide_True.
Qed.

Lemma for_each_collect {X} (body : list Word.t -> X -> result (list Word.t))
    (g : X -> list Vision.Word) (xs : list X) :
  (forall acc x, Forall has_corners (g x) -> body acc x = Ok (acc ++ kept (g x))) ->
  Forall has_corners (xs ≫= g) ->
  forall acc, for_each xs body acc = Ok (acc ++ kept (xs ≫= g)).
Proof.
  intros Hbody. induction xs as [|x xs IH]; intros Hwf acc; cbn [for_each].
  - by rewrite app_nil_r.
  - rewrite bind_cons in Hwf. apply Forall_app in Hwf as [Hx Hxs].
    rewrite Hbody by done. cbn [mbind result_bind].
    rewrite IH by done.
    by rewrite bind_cons, filter_app, fmap_app, app_assoc.
Qed.

Lemma bind_single {A} (l : list A) : l ≫= (fun a => [a]) = l.
Proof. induction l as [|a l IH]; [done|]. by rewrite bind_cons, IH. Qed.

Lemma words_raw_from_response_kept (response : Vision.AnnotateFileResponse) :
  Forall has_corners (candidates response) ->
  words_raw_from_response response config = Ok (kept (candidates response)).
Proof.
  intros Hwf. unfold words_raw_from_response, candidates in *.
  rewrite (for_each_collect _
             (fun page => block ← Vision.blocks page;
                          paragraph ← Vision.paragraphs block;
                          Vision.words paragraph)); [done| |done].
  intros acc page Hpage.
  apply (for_each_collect _
           (fun block => paragraph ← Vision.paragraphs block;
                         Vision.words paragraph)); [|done].
  intros acc' block Hblock.
  apply (for_each_collect _ Vision.words); [|done].
  intros acc'' paragraph Hpar.
  rewrite <- (bind_single (Vision.words paragraph)) at 2.
  rewrite <- (bind_single (Vision.words paragraph)) in Hpar.
  apply (for_each_collect _ (fun w => [w])); [|done].
  intros acc3 w Hw. by apply word_body_kept.
Qed.

End Extractor.

(** C5.  On a response whose words carry their bounding quadrilateral,
    the extractor returns the records of exactly the candidate words
    that are not discarded, in the traversal order of the response
    (pages, blocks, paragraphs, words); a candidate is discarded when
    its confidence is below min_confidence or its height
    |vertices[2].y - vertices[0].y| is below min_word_height. *)
Theorem extractor_keeps_exactly_the_undiscarded
    (response : Vision.AnnotateFileResponse) (config : Config) :
  Forall has_corners (candidates response) ->
  words_raw_from_response response config
  = Ok (word_of config
          <$> filter (fun w => ~ discarded config w) (candidates response)).
Proof. apply words_raw_from_response_kept. Qed.

Lemma extractor_keeps_exactly_the_undiscarded_witness :
  Forall has_corners (candidates sample_response)
  /\ words_raw_from_response sample_response sample_config
     = Ok (word_of sample_config
             <$> filter (fun w => ~ discarded sample_config w)
                   (candidates sample_response)).
Proof.
  split.
  - repeat constructor.
  - apply extractor_keeps_exactly_the_undiscarded. repeat constructor.
Defined.

Lemma for_each_inv {S X} (I : S -> Prop) (body : S -> X -> result S) xs :
  (forall s x s', I s -> body s x = Ok s' -> I s') ->
  forall s s', I s -> for_each xs body s = Ok s' -> I s'.
Proof.
  intros Hbody. induction xs as [|x xs IH]; intros s s' Hs; cbn [for_each].
  - by intros [= <-].
  - destruct (body s x) as [s1|e] eqn:Hb; cbn [mbind result_bind]; [|done].
    apply IH. by eapply Hbody.
Qed.

Lemma word_body_classifies config (acc : list Word.t) word out :
  Forall (fun W => Word.iskanji W = true <-> min_kanji_height config <= height W)
    acc ->
  word_body config acc word = Ok out ->
  Forall (fun W => Word.iskanji W = true <-> min_kanji_height config <= height W)
    out.
Proof.
  intros Hacc. unfold word_body.
  destruct (index _ 2) as [v2|]; cbn [mbind result_bind]; [|done].
  destruct (index _ 0) as [v0|]; cbn [mbind result_bind]; [|done].
  destruct (_ && _); [|by intros [= <-]].
  destruct (index _ 1) as [v1|]; cbn [mbind result_bind]; [|done].
  intros [= <-]. apply Forall_app. split; [done|].
  constructor; [|constructor]. unfold height. cbn.
  rewrite Z.geb_leb.
  destruct (Z.leb_spec (min_kanji_height config)
              (Z.abs (Vision.y v2 - Vision.y v0))); [done|].
  split; [done|lia].
Qed.

(** C6.  Every word returned by the extractor is flagged kanji exactly
    when the height of its box, |yb - yt|, is at least min_kanji_height;
    so a returned word whose height lies in
    [min_word_height, min_kanji_height) is not flagged. *)
Theorem kanji_flag_is_height_threshold
    (response : Vision.AnnotateFileResponse) (config : Config)
    (words_raw : list Word.t) (w : Word.t) :
  words_raw_from_response response config = Ok words_raw ->
  w ∈ words_raw ->
  (Word.iskanji w = true <-> min_kanji_height config <= height w)
  /\ (min_word_height config <= height w < min_kanji_height config ->
      Word.iskanji w = false).
Proof.
  intros Hrun Hw.
  assert (Forall (fun W => Word.iskanji W = true
                           <-> min_kanji_height config <= height W) words_raw)
    as Hall.
  { revert Hrun. unfold words_raw_from_response.
    apply for_each_inv; [|constructor]. intros s page s' Hs.
    apply for_each_inv; [|done]. intros s1 block s1' Hs1.
    apply for_each_inv; [|done]. intros s2 paragraph s2' Hs2.
    apply for_each_inv; [|done]. intros s3 word s3' Hs3.
    by apply word_body_classifies. }
  apply (proj1 (Forall_forall _ _) Hall) in Hw.
  split; [done|]. intros [_ Hlt].
  apply not_true_is_false. intros Hk. apply Hw in Hk. lia.
Qed.

Lemma kanji_flag_is_height_threshold_witness :
  words_raw_from_response sample_response sample_config
  = Ok [ Word.mk "漢" 30 0 0 30 true; Word.mk "3D" 30 0 40 70 true;
         Word.mk "かん" 32 20 0 20 false; Word.mk "じ" 32 20 21 30 false ]
  /\ (Word.iskanji (Word.mk "かん" 32 20 0 20 false) = true
      <-> min_kanji_height sample_config <= height (Word.mk "かん" 32 20 0 20 false))
  /\ (min_word_height sample_config <= height (Word.mk "かん" 32 20 0 20 false)
        < min_kanji_height sample_config ->
      Word.iskanji (Word.mk "かん" 32 20 0 20 false) = false).
Proof.
  split; [reflexivity|].
  apply (kanji_flag_is_height_threshold sample_response sample_config
           [ Word.mk "漢" 30 0 0 30 true; Word.mk "3D" 30 0 40 70 true;
             Word.mk "かん" 32 20 0 20 false; Word.mk "じ" 32 20 21 30 false ]).
  - reflexivity.
  - apply list_elem_of_In. simpl. tauto.
Defined.

(** ** The output records *)

Lemma utf8_round_trip (s : string) : Word.decode_utf8 (Word.encode_utf8 s) = s.
Proof. apply string_of_list_byte_of_string. Qed.

(** C8.  The record made of a word has exactly the keys string and
    type; string holds the word's text and type holds kanji when the
    word is flagged and vocab otherwise; the records handed to the
    serializer are those of the queries, position by position. *)
Theorem yaml_record_of_word (w : Word.t) (queries : list Word.t) :
  dom (Word.to_yaml_dict w) = ({["string"; "type"]} : gset string)
  /\ Word.to_yaml_dict w !! "string" = Some (Word.string w)
  /\ Word.to_yaml_dict w !! "type"
     = Some (if Word.iskanji w then "kanji" else "vocab")
  /\ length (dump_records queries) = length queries
  /\ (forall i, dump_records queries !! i = Word.to_yaml_dict <$> queries !! i).
Proof.
  split; [|split; [|split; [|split]]].
  - unfold Word.to_yaml_dict.
    destruct (Word.iskanji w); cbv zeta;
      rewrite !dom_insert_L, dom_empty_L; set_solver.
  - unfold Word.to_yaml_dict.
    destruct (Word.iskanji w); cbv zeta;
      rewrite lookup_insert_ne by done; rewrite lookup_insert_eq;
      [done|by rewrite utf8_round_trip].
  - unfold Word.to_yaml_dict.
    destruct (Word.iskanji w); cbv zeta; by rewrite lookup_insert_eq.
  - unfold dump_records. apply length_map.
  - intros i. unfold dump_records. apply list_lookup_fmap.
Qed.

(** ** A buffer in progress when a kanji is reached *)

Section Discard.

Variable config : Config.
Variable ws : list Word.t.

Local Abbreviation n := (length ws).
Local Abbreviation raw := (seq 0 (length ws)).

Lemma merge_loop_inv k : forall i st,
  inv ws st -> (i + k + 1 <= n)%nat ->
  exists st', for_each (seq i k) (merge_body config raw) st = Ok st'
              /\ inv ws st'.
Proof.
  induction k as [|k IH]; intros i st Hinv Hik; cbn [seq for_each].
  - by exists st.
  - destruct (merge_body_sound config ws st i Hinv) as (st1 & -> & Hinv1 & _);
      [lia|].
    cbn [mbind result_bind]. apply IH; [done|lia].
Qed.

(** A reference that is neither in [words] nor the buffer in progress
    stays out of [words] for the rest of the pass. *)
Lemma merge_body_absent (b : ref) st st' i :
  (i + 1 < n)%nat ->
  (b < length (hp st))%nat -> b ∉ words st ->
  (buffer_set st = true -> buffer st <> b) ->
  merge_body config raw st i = Ok st' ->
  (b < length (hp st'))%nat /\ (b ∉ words st')
  /\ (buffer_set st' = true -> buffer st' <> b).
Proof.
  intros Hi Hb Hout Hbuf. unfold merge_body.
  rewrite !index_seq by lia. cbn [mbind result_bind].
  destruct (Bool.eqb (Word.iskanji _) true).
  { intros [= <-]. cbn. rewrite length_app, not_elem_of_app, list_elem_of_singleton.
    cbn. repeat split; [lia|done|lia|done]. }
  destruct (buffer_set st) eqn:Hbs; cbn [Bool.eqb alloc].
  - destruct (Z.abs _ <=? _); intros [= <-]; cbn; unfold update.
    + rewrite length_insert. auto.
    + rewrite not_elem_of_app, list_elem_of_singleton.
      repeat split; [done|done| |done]. intros ->. by apply Hbuf.
  - destruct (Z.abs _ <=? _); intros [= <-]; cbn; unfold update.
    + rewrite length_insert, length_app. cbn. repeat split; [lia|done|lia].
    + rewrite length_app, not_elem_of_app, list_elem_of_singleton. cbn.
      repeat split; [lia|done|lia|done].
Qed.

Lemma merge_rest_absent (b : ref) k : forall i st,
  inv ws st -> (i + k + 1 = n)%nat -> (n <= b)%nat ->
  (b < length (hp st))%nat -> b ∉ words st ->
  (buffer_set st = true -> buffer st <> b) ->
  exists h out,
    (st' ← for_each (seq i k) (merge_body config raw) st; merge_flush raw st')
    = Ok (h, out) /\ b ∉ out.
Proof.
  induction k as [|k IH]; intros i st Hinv Hik Hn Hb Hout Hbuf;
    cbn [seq for_each mbind result_bind].
  - unfold merge_flush. destruct (buffer_set st) eqn:Hbs; cbn [Bool.eqb].
    + eexists _, _. split; [reflexivity|].
      rewrite not_elem_of_app, list_elem_of_singleton.
      split; [done|]. intros ->. by apply Hbuf.
    + replace n with (S i) by lia. rewrite index_last_seq.
      cbn [mbind result_bind]. eexists _, _. split; [reflexivity|].
      rewrite not_elem_of_app, list_elem_of_singleton. split; [done|lia].
  - destruct (merge_body_sound config ws st i Hinv) as (st1 & Hstep & Hinv1 & _);
      [lia|].
    rewrite Hstep. cbn [mbind result_bind].
    destruct (merge_body_absent b st st1 i) as (? & ? & ?); [lia|done..|].
    apply IH; [done|lia|done..].
Qed.

Lemma buffer_discarded (i : nat) (st : merge_state) :
  (i + 1 < n)%nat ->
  (st0 ← merge_init ws raw; for_each (seq 0 i) (merge_body config raw) st0)
  = Ok st ->
  buffer_set st = true ->
  Word.iskanji (ws !!! i) = true ->
  exists h out, merge_pass config ws raw = Ok (h, out) /\ buffer st ∉ out.
Proof.
  intros Hi Hrun Hbs Hk.
  assert (ws <> []) as Hne by (intros ->; cbn in Hi; lia).
  destruct (inv_init ws Hne) as (st0 & Hinit & Hinv0 & _).
  rewrite Hinit in Hrun. cbn [mbind result_bind] in Hrun.
  destruct (merge_loop_inv i 0 st0 Hinv0) as (st_i & Hpre & Hinv); [lia|].
  rewrite Hpre in Hrun. injection Hrun as ->.
  unfold merge_pass. rewrite Hinit. cbn [mbind result_bind].
  rewrite length_seq.
  replace (n - 1)%nat with (i + S (n - 2 - i))%nat by lia.
  rewrite seq_app, for_each_app, Hpre. cbn [mbind result_bind seq for_each plus].
  destruct (merge_body_sound config ws st i Hinv) as (st1 & Hstep & Hinv1 & _);
    [lia|].
  rewrite Hstep. cbn [mbind result_bind].
  pose proof Hstep as Hshape. unfold merge_body in Hshape.
  rewrite !index_seq in Hshape by lia. cbn [mbind result_bind] in Hshape.
  rewrite (inv_read ws st i Hinv), Hk in Hshape by lia.
  cbn in Hshape. injection Hshape as <-.
  destruct Hinv as [_ Hwords Hbuf Hfresh].
  apply (merge_rest_absent (buffer st) (n - 2 - i) (S i)); cbn.
  - done.
  - lia.
  - lia.
  - rewrite length_app. cbn. lia.
  - rewrite not_elem_of_app, list_elem_of_singleton. split; [by apply Hfresh|lia].
  - discriminate.
Qed.

End Discard.

(** C10.  When the loop reaches a kanji while a buffer is in progress
    (some non-kanji word has been accumulated into it), that buffer is
    dropped: the pass completes and the buffer object is not in the
    merged list.  There are inputs for which the text of such a
    non-kanji word occurs in no word of the result. *)
Theorem pending_buffer_dropped_at_kanji :
  (forall (config : Config) (ws : list Word.t) (i : nat) (st : merge_state),
     (i + 1 < length ws)%nat ->
     (st0 ← merge_init ws (seq 0 (length ws));
      for_each (seq 0 i) (merge_body config (seq 0 (length ws))) st0) = Ok st ->
     buffer_set st = true ->
     Word.iskanji (ws !!! i) = true ->
     exists h out,
       merge_pass config ws (seq 0 (length ws)) = Ok (h, out)
       /\ (buffer st ∉ out))
  /\ (exists (words_raw : list Word.t) (config : Config) (a : Word.t)
             (queries : list Word.t),
        a ∈ words_raw /\ ~ is_kanji a
        /\ merge_and_filter_words words_raw config = Ok queries
        /\ (forall q, q ∈ queries ->
              String.index 0 (Word.string a) (Word.string q) = None)).
Proof.
  split.
  - intros config ws i st. apply buffer_discarded.
  - exists discard_words, sample_config, (Word.mk "あ" 32 20 0 10 false),
      [Word.mk "漢" 30 0 11 41 true; Word.mk "い" 32 20 50 60 false].
    split; [left|]. split; [by cbv|]. split; [reflexivity|].
    intros q Hq. apply list_elem_of_In in Hq.
    destruct Hq as [<-|[<-|[]]]; reflexivity.
Qed.

Lemma pending_buffer_dropped_at_kanji_witness :
  (1 + 1 < length discard_words)%nat
  /\ (st0 ← merge_init discard_words (seq 0 (length discard_words));
      for_each (seq 0 1)
        (merge_body sample_config (seq 0 (length discard_words))) st0)
     = Ok {| hp := discard_words
                   ++ [Word.mk "あ" 32 20 0 10 false;
                       Word.mk "あ漢" 32 20 0 41 false];
             words := []; buffer := 4%nat; buffer_set := true |}
  /\ Word.iskanji (discard_words !!! 1%nat) = true
  /\ exists h out,
       merge_pass sample_config discard_words (seq 0 (length discard_words))
       = Ok (h, out)
       /\ (4%nat ∉ out).
Proof.
  split; [cbn; lia|]. split; [reflexivity|]. split; [reflexivity|].
  apply (proj1 pending_buffer_dropped_at_kanji sample_config discard_words 1%nat
           {| hp := discard_words
                    ++ [Word.mk "あ" 32 20 0 10 false;
                        Word.mk "あ漢" 32 20 0 41 false];
              words := []; buffer := 4%nat; buffer_set := true |}).
  - cbn; lia.
  - reflexivity.
  - reflexivity.
  - reflexivity.
Defined.

(** ** A kanji in last position *)

(** C1.  The code at a filtered input that ends with a kanji directly
    preceded, within the merge distance, by a vocabulary word: the kanji
    is merged into that word, the result holds the merged text, and the
    kanji itself is missing from the result. *)
Theorem trailing_kanji_is_merged :
  latin_filter trailing_kanji_words = trailing_kanji_words
  /\ merge_and_filter_words trailing_kanji_words sample_config
     = Ok [ Word.mk "漢" 30 0 0 30 true; Word.mk "あ字" 32 20 40 81 false ]
  /\ Word.mk "字" 30 0 51 81 true ∈ trailing_kanji_words
  /\ (Word.mk "字" 30 0 51 81 true
      ∉ [ Word.mk "漢" 30 0 0 30 true; Word.mk "あ字" 32 20 40 81 false ]).
Proof.
  split; [reflexivity|]. split; [reflexivity|]. split.
  - apply list_elem_of_In. simpl. tauto.
  - intros Hin. apply list_elem_of_In in Hin.
    destruct Hin as [H|[H|[]]]; discriminate H.
Qed.

(** C3.  The code at two filtered inputs in which the run made of the
    single vocabulary word "あ" has a kanji within the merge distance as
    right neighbour.  When that kanji is the last word, the word merged
    for the run carries the kanji's text and right edge; when it is not,
    no word is produced for the run. *)
Theorem run_before_near_kanji :
  merged_words sample_config trailing_kanji_words
  = Ok [ Word.mk "漢" 30 0 0 30 true; Word.mk "あ字" 32 20 40 81 false ]
  /\ merged_words sample_config discard_words
     = Ok [ Word.mk "漢" 30 0 11 41 true; Word.mk "い" 32 20 50 60 false ].
Proof. split; reflexivity. Qed.

(** ** Where kanji pass through and runs merge as one word

    The two evaluations above are the only way a kanji of the filtered
    input is lost or a run is merged wrongly: a vocabulary word followed
    within the merge distance by a kanji.  Away from that situation the
    pass behaves as follows. *)

Lemma append_nil_r (s : string) : s +:+ EmptyString = s.
Proof.
  induction s as [|c s IH]; [done|].
  change (String c (s +:+ EmptyString) = String c s). by rewrite IH.
Qed.

Lemma append_assoc (s1 s2 s3 : string) : (s1 +:+ s2) +:+ s3 = s1 +:+ (s2 +:+ s3).
Proof.
  induction s1 as [|c s1 IH]; [done|].
  change (String c ((s1 +:+ s2) +:+ s3) = String c (s1 +:+ (s2 +:+ s3))).
  by rewrite IH.
Qed.

Lemma last_cons_default {A} (l : list A) : forall x d d',
  List.last (x :: l) d = List.last (x :: l) d'.
Proof.
  induction l as [|a l IH]; intros x d d'; [done|].
  change (List.last (a :: l) d = List.last (a :: l) d'). apply IH.
Qed.

(** X17.  Merging the fragments of [rest] one after the other into
    [first] gives the concatenation of the texts in order and the right
    edge of the last fragment; top, bottom, left edge and kanji flag
    stay those of [first]. *)
Lemma merge_run_fields (first : Word.t) (rest : list Word.t) :
  Word.string (merge_run first rest)
  = Word.string first +:+ String.concat EmptyString (map Word.string rest)
  /\ Word.xr (merge_run first rest) = Word.xr (List.last rest first)
  /\ Word.yt (merge_run first rest) = Word.yt first
  /\ Word.yb (merge_run first rest) = Word.yb first
  /\ Word.xl (merge_run first rest) = Word.xl first
  /\ Word.iskanji (merge_run first rest) = Word.iskanji first.
Proof.
  unfold merge_run. revert first.
  induction rest as [|r rest IH]; intros first.
  - cbn. by rewrite append_nil_r.
  - cbn [fold_left map].
    destruct (IH (Word.merge first r)) as (Hs & Hx & ? & ? & ? & ?).
    repeat split; try done.
    + rewrite Hs. cbn [Word.merge Word.string].
      rewrite append_assoc. f_equal.
      destruct rest as [|r' rest]; [|reflexivity].
      cbn [map String.concat]. by rewrite append_nil_r.
    + rewrite Hx. destruct rest as [|r' rest]; [reflexivity|].
      change (List.last (r :: r' :: rest) first) with (List.last (r' :: rest) first).
      f_equal. apply last_cons_default.
Qed.

(** Between a word that is a kanji, or is not within the merge distance
    of its successor [x], and [x], the walk starts afresh. *)
Lemma merge_from_cut config : forall pre buf x tl,
  pre <> [] ->
  is_kanji (List.last pre x) \/ near config (List.last pre x) x = false ->
  exists out,
    merge_from config buf (pre ++ x :: tl) = out ++ merge_from config None (x :: tl).
Proof.
  induction pre as [|p pre IH]; intros buf x tl Hne Hcut; [done|].
  destruct pre as [|p' pre].
  - cbn [app List.last] in *. rewrite merge_from_cons.
    destruct (Word.iskanji p) eqn:Hp; [by exists [p]|].
    destruct Hcut as [Hk|Hfar]; [unfold is_kanji in Hk; congruence|].
    rewrite Hfar. by eexists [_].
  - change (List.last (p :: p' :: pre) x) with (List.last (p' :: pre) x) in Hcut.
    change ((p :: p' :: pre) ++ x :: tl) with (p :: p' :: (pre ++ x :: tl)).
    rewrite merge_from_cons.
    change (p' :: pre ++ x :: tl) with ((p' :: pre) ++ x :: tl).
    destruct (Word.iskanji p).
    + destruct (IH None x tl) as [out ->]; [done..|]. by exists (p :: out).
    + destruct (near config p p').
      * apply IH; done.
      * destruct (IH None x tl) as [out ->]; [done..|].
        by eexists (_ :: out).
Qed.

(** A run of vocabulary words, each within the merge distance of the
    one before, whose right neighbour (if any) is not within the merge
    distance, is emitted as one word. *)
Lemma merge_from_run config : forall rest first buf post,
  ~ is_kanji first -> Forall (fun w => ~ is_kanji w) rest ->
  chained config first rest ->
  (forall p post', post = p :: post' ->
     near config (List.last rest first) p = false) ->
  merge_from config buf (first :: rest ++ post)
  = merge_run (default first buf) rest
    :: match post with [] => [] | _ => merge_from config None post end.
Proof.
  induction rest as [|r rest IH]; intros first buf post Hf Hrest Hch Hend.
  - cbn [app]. destruct post as [|p post]; [done|].
    rewrite merge_from_cons.
    unfold is_kanji in Hf. apply not_true_is_false in Hf. rewrite Hf.
    pose proof (Hend p post eq_refl) as Hfar. cbn [List.last] in Hfar.
    by rewrite Hfar.
  - apply Forall_cons in Hrest as [Hr Hrest]. destruct Hch as [Hnear Hch].
    change (first :: (r :: rest) ++ post) with (first :: r :: (rest ++ post)).
    rewrite merge_from_cons, Hnear.
    unfold is_kanji in Hf. apply not_true_is_false in Hf. rewrite Hf.
    rewrite IH; [done|done|done|done|].
    intros p post' ->. specialize (Hend p post' eq_refl).
    destruct rest as [|r' rest]; [done|].
    change (List.last (r :: r' :: rest) first)
      with (List.last (r' :: rest) first) in Hend.
    by rewrite (last_cons_default rest r' r first).
Qed.

(** X16.  A run of vocabulary words, each within the merge distance
    of the one before, is merged into one word of the merged list when
    its left neighbour (if any) is a kanji or is not within the merge
    distance of its first word, and its right neighbour (if any) is not
    within the merge distance of its last word. *)
Lemma clean_run_is_merged config pre first rest post :
  pre = [] \/ is_kanji (List.last pre first)
  \/ near config (List.last pre first) first = false ->
  ~ is_kanji first -> Forall (fun w => ~ is_kanji w) rest ->
  chained config first rest ->
  (forall p post', post = p :: post' ->
     near config (List.last rest first) p = false) ->
  exists before after,
    merged_words config (pre ++ first :: rest ++ post)
    = Ok (before ++ merge_run first rest :: after).
Proof.
  intros Hleft Hf Hrest Hch Hend. rewrite merged_words_eq.
  destruct (pre ++ first :: rest ++ post) as [|w0 ws0] eqn:Hws;
    [by destruct pre|].
  rewrite <- Hws. clear Hws.
  destruct (decide (pre = [])) as [->|Hne].
  - cbn [app]. rewrite merge_from_run by done. by eexists [], _.
  - destruct Hleft as [?|Hcut]; [done|].
    destruct (merge_from_cut config pre None first (rest ++ post) Hne Hcut)
      as [out ->].
    rewrite merge_from_run by done. by eexists out, _.
Qed.

(** A kanji that is not the last word is in the merged list, and so is
    a last kanji whose left neighbour is a kanji or is not within the
    merge distance. *)
Lemma kanji_passes config : forall pre buf k post,
  is_kanji k -> post <> [] -> k ∈ merge_from config buf (pre ++ k :: post).
Proof.
  induction pre as [|p pre IH]; intros buf k post Hk Hpost.
  - destruct post as [|p post]; [done|]. cbn [app].
    rewrite merge_from_cons, Hk. left.
  - assert (exists w' tl, pre ++ k :: post = w' :: tl) as (w' & tl & Heq).
    { destruct pre; cbn; eauto. }
    cbn [app]. rewrite Heq, merge_from_cons, <- Heq.
    destruct (Word.iskanji p); [right; by apply IH|].
    destruct (near config p w'); [by apply IH|right; by apply IH].
Qed.

Lemma kanji_last_passes config pre k :
  is_kanji k ->
  pre = [] \/ is_kanji (List.last pre k) \/ near config (List.last pre k) k = false ->
  k ∈ merge_from config None (pre ++ [k]).
Proof.
  intros Hk Hleft. destruct (decide (pre = [])) as [->|Hne]; [left|].
  destruct Hleft as [?|Hcut]; [done|].
  destruct (merge_from_cut config pre None k [] Hne Hcut) as [out ->].
  apply elem_of_app. right. left.
Qed.

Lemma grouped_kanji config words k :
  k ∈ words -> is_kanji k -> k ∈ grouped config words.
Proof.
  intros Hin Hk. unfold grouped. apply list_elem_of_bind.
  exists k. split; [left|]. by apply list_elem_of_filter.
Qed.

(** X15.  Every kanji of the filtered input is returned unchanged,
    unless it is the last word and directly follows a vocabulary word
    within the merge distance. *)
Lemma kanji_kept words_raw config pre k post :
  latin_filter words_raw = pre ++ k :: post ->
  is_kanji k ->
  post <> [] \/ pre = [] \/ is_kanji (List.last pre k)
  \/ near config (List.last pre k) k = false ->
  exists queries,
    merge_and_filter_words words_raw config = Ok queries /\ k ∈ queries.
Proof.
  intros Hf Hk Hcase. rewrite merge_and_filter_words_eq, Hf.
  destruct (pre ++ k :: post) as [|w0 ws0] eqn:Hws; [by destruct pre|].
  rewrite <- Hws. clear Hws. eexists. split; [reflexivity|].
  apply grouped_kanji; [|done].
  destruct (decide (post = [])) as [->|Hpost].
  - destruct Hcase as [?|Hleft]; [done|]. by apply kanji_last_passes.
  - by apply kanji_passes.
Qed.

(** ** Evaluations *)

(** The scenario of the specification: the two fragments merge into one
    word (gap 1), whose band [12, 20] is outside the window [-3, 13] of
    both kanji. *)
Example scenario_merged :
  merged_words scenario_config scenario_words
  = Ok [ Word.mk "漢" 10 0 0 10 true; Word.mk "字" 10 0 12 22 true;
         Word.mk "かんじ" 20 12 0 9 false ].
Proof. reflexivity. Qed.

Example scenario_queries :
  merge_and_filter_words scenario_words scenario_config
  = Ok [ Word.mk "漢" 10 0 0 10 true; Word.mk "字" 10 0 12 22 true ].
Proof. reflexivity. Qed.

(** A word in the window of two kanji is listed after each of them. *)
Example vocabulary_listed_per_kanji :
  merge_and_filter_words
    [ Word.mk "漢" 30 0 0 30 true; Word.mk "字" 30 0 40 70 true;
      Word.mk "かん" 32 20 0 20 false; Word.mk "じ" 32 20 21 30 false ]
    sample_config
  = Ok [ Word.mk "漢" 30 0 0 30 true; Word.mk "かんじ" 32 20 0 30 false;
         Word.mk "字" 30 0 40 70 true; Word.mk "かんじ" 32 20 0 30 false ].
Proof. reflexivity. Qed.

(** Only the first character decides the Latin/numeric filter. *)
Example latin_filter_prefix_only :
  latin_filter [ Word.mk "3D" 30 0 0 30 true; Word.mk "漢A" 30 0 40 70 true;
                 Word.mk "-x" 12 0 0 9 false; Word.mk "かb" 12 0 10 19 false ]
  = [ Word.mk "漢A" 30 0 40 70 true; Word.mk "かb" 12 0 10 19 false ].
Proof. reflexivity. Qed.

(** The extractor and the merger on the sample response: the word "3D"
    passes the extractor and is removed by the filter. *)
Example sample_pipeline :
  (words_raw ← words_raw_from_response sample_response sample_config;
   merge_and_filter_words words_raw sample_config)
  = Ok [ Word.mk "漢" 30 0 0 30 true; Word.mk "かんじ" 32 20 0 30 false ].
Proof. reflexivity. Qed.

(** * Further properties of the code *)

(** ** The extractor: failure and thresholds *)

Lemma word_body_raise config (words_raw : list Word.t) (word : Vision.Word) :
  ~ has_corners word -> word_body config words_raw word = Raise IndexError.
Proof.
  unfold has_corners, word_body.
  destruct word as [syms [vs] conf]; cbn.
  destruct vs as [|v0 [|v1 [|v2 vs]]]; cbn; try done.
  intros H. exfalso. apply H. lia.
Qed.

Lemma for_each_collect_or_raise config {X}
    (body : list Word.t -> X -> result (list Word.t))
    (g : X -> list Vision.Word) (xs : list X) :
  (forall acc x,
     body acc x
     = if decide (Forall has_corners (g x))
       then Ok (acc ++ (word_of config
                          <$> filter (fun w => ~ discarded config w) (g x)))
       else Raise IndexError) ->
  forall acc,
    for_each xs body acc
    = if decide (Forall has_corners (xs ≫= g))
      then Ok (acc ++ (word_of config
                         <$> filter (fun w => ~ discarded config w) (xs ≫= g)))
      else Raise IndexError.
Proof.
  intros Hbody. induction xs as [|x xs IH]; intros acc; cbn [for_each].
  - rewrite decide_True by constructor. by rewrite app_nil_r.
  - rewrite Hbody, bind_cons.
    destruct (decide (Forall has_corners (g x))) as [Hx|Hx];
      cbn [mbind result_bind].
    + rewrite IH.
      destruct (decide (Forall has_corners (xs ≫= g))) as [Hxs|Hxs].
      * rewrite decide_True by (by apply Forall_app).
        by rewrite filter_app, fmap_app, app_assoc.
      * rewrite decide_False; [done|]. by intros [_ ?]%Forall_app.
    + rewrite decide_False; [done|]. by intros [? _]%Forall_app.
Qed.

Lemma words_raw_from_response_eq (response : Vision.AnnotateFileResponse)
    (config : Config) :
  words_raw_from_response response config
  = if decide (Forall has_corners (candidates response))
    then Ok (word_of config
               <$> filter (fun w => ~ discarded config w) (candidates response))
    else Raise IndexError.
Proof.
  unfold words_raw_from_response, candidates.
  rewrite (for_each_collect_or_raise config _
             (fun page => block ← Vision.blocks page;
                          paragraph ← Vision.paragraphs block;
                          Vision.words paragraph)); [done|].
  intros acc page.
  apply (for_each_collect_or_raise config _
           (fun block => paragraph ← Vision.paragraphs block;
                         Vision.words paragraph)).
  intros acc' block.
  apply (for_each_collect_or_raise config _ Vision.words).
  intros acc'' paragraph.
  pose proof (for_each_collect_or_raise config (word_body config)
                (fun w => [w]) (Vision.words paragraph)) as Hwords.
  rewrite bind_single in Hwords. apply Hwords.
  intros acc3 w.
  destruct (decide (Forall has_corners [w])) as [Hw|Hw].
  - by apply word_body_kept.
  - apply word_body_raise. intros Hc. apply Hw. by constructor.
Qed.

(** X1.  The extractor raises IndexError exactly when some word of the
    response has fewer than three vertices; the height is computed
    before the thresholds are tested, so this holds whatever the
    confidence of that word is.  Otherwise it returns a list. *)
Theorem extractor_raises_iff_short_box
    (response : Vision.AnnotateFileResponse) (config : Config) :
  (words_raw_from_response response config = Raise IndexError
   <-> exists word, word ∈ candidates response
         /\ (length (Vision.vertices (Vision.bounding_box word)) < 3)%nat)
  /\ (Forall has_corners (candidates response)
      <-> exists words_raw, words_raw_from_response response config = Ok words_raw).
Proof.
  rewrite words_raw_from_response_eq.
  destruct (decide (Forall has_corners (candidates response))) as [Hwf|Hwf].
  - split; [split; [done|]|split; [eauto|done]].
    intros (word & Hin & Hlt).
    apply (proj1 (Forall_forall _ _) Hwf) in Hin. unfold has_corners in Hin. lia.
  - split; [split; [|done]|split; [done|by intros [? ?]]].
    intros _. apply not_Forall_Exists in Hwf; [|apply _].
    apply Exists_exists in Hwf as (word & Hin & Hc).
    exists word. split; [done|].
    unfold compose, has_corners in Hc. lia.
Qed.

(** X2.  Whatever list the extractor returns, it is no longer than the
    number of candidate words, each of its words is at least
    min_word_height high, and when min_kanji_height does not exceed
    min_word_height every returned word is flagged kanji. *)
Theorem extractor_output_bounds
    (response : Vision.AnnotateFileResponse) (config : Config)
    (words_raw : list Word.t) :
  words_raw_from_response response config = Ok words_raw ->
  (length words_raw <= length (candidates response))%nat
  /\ Forall (fun w => min_word_height config <= height w) words_raw
  /\ (min_kanji_height config <= min_word_height config ->
      Forall is_kanji words_raw).
Proof.
  rewrite words_raw_from_response_eq. case_decide as Hwf; [|done].
  intros [= <-]. split; [|split].
  - rewrite length_fmap. apply length_filter.
  - apply Forall_fmap, Forall_forall. intros c [Hc _]%list_elem_of_filter.
    cbn. unfold discarded in Hc. change (min_word_height config <= bbox_height c). lia.
  - intros Hle. apply Forall_fmap, Forall_forall.
    intros c [Hc _]%list_elem_of_filter. unfold is_kanji. cbn.
    apply bool_decide_eq_true. unfold discarded in Hc. lia.
Qed.

Lemma extractor_output_bounds_witness :
  words_raw_from_response sample_response sample_config
  = Ok [ Word.mk "漢" 30 0 0 30 true; Word.mk "3D" 30 0 40 70 true;
         Word.mk "かん" 32 20 0 20 false; Word.mk "じ" 32 20 21 30 false ]
  /\ (4 <= length (candidates sample_response))%nat.
Proof.
  split; [reflexivity|].
  apply (extractor_output_bounds sample_response sample_config
           [ Word.mk "漢" 30 0 0 30 true; Word.mk "3D" 30 0 40 70 true;
             Word.mk "かん" 32 20 0 20 false; Word.mk "じ" 32 20 21 30 false ]).
  reflexivity.
Defined.

(** ** main: the extractor followed by the merger *)

(** X3.  When every word of a well-formed response is discarded by the
    thresholds or has a text beginning with a character of the
    Latin/numeric class (in particular when the response holds no word
    at all), main fails with IndexError before anything is written. *)
Theorem main_raises_without_candidates
    (response : Vision.AnnotateFileResponse) (config : Config) :
  Forall has_corners (candidates response) ->
  Forall (fun word => discarded config word
                      \/ begins_latin (Word.string (word_of config word)))
    (candidates response) ->
  main_dump response config = Raise IndexError.
Proof.
  intros Hwf Hall. unfold main_dump.
  rewrite words_raw_from_response_eq, decide_True by done.
  cbn [mbind result_bind].
  rewrite merge_and_filter_words_eq, latin_filter_spec.
  replace (filter _ (word_of config <$> _)) with (@nil Word.t); [done|].
  symmetry. induction Hall as [|c cs Hc _ IH]; [done|].
  apply Forall_cons in Hwf as [_ Hwf].
  rewrite filter_cons. case_decide as Hd; [|by apply IH].
  rewrite fmap_cons, filter_cons_False; [by apply IH|].
  intros Hnl. destruct Hc; done.
Qed.

Lemma main_raises_without_candidates_witness :
  Forall has_corners
    (candidates
       {| Vision.full_text_annotation :=
            {| Vision.pages :=
                 [ {| Vision.blocks :=
                        [ {| Vision.paragraphs :=
                               [ {| Vision.words :=
                                      [ ocr_word ["3"; "D"] (box 40 0 70 30)
                                          (QArith_base.Qmake 99 100);
                                        ocr_word ["、"] (box 71 29 73 32)
                                          (QArith_base.Qmake 9 10) ] |} ] |} ] |} ] |} |})
  /\ main_dump
       {| Vision.full_text_annotation :=
            {| Vision.pages :=
                 [ {| Vision.blocks :=
                        [ {| Vision.paragraphs :=
                               [ {| Vision.words :=
                                      [ ocr_word ["3"; "D"] (box 40 0 70 30)
                                          (QArith_base.Qmake 99 100);
                                        ocr_word ["、"] (box 71 29 73 32)
                                          (QArith_base.Qmake 9 10) ] |} ] |} ] |} ] |} |}
       sample_config
     = Raise IndexError.
Proof.
  split; [repeat constructor|].
  apply main_raises_without_candidates; [repeat constructor|].
  constructor; [|constructor; [|constructor]].
  - right. change (in_class "3"%char). unfold in_class. cbn. lia.
  - left. right. reflexivity.
Defined.

Lemma to_yaml_dict_type (w : Word.t) :
  Word.to_yaml_dict w !! "type"
  = Some (if Word.iskanji w then "kanji" else "vocab").
Proof.
  unfold Word.to_yaml_dict.
  destruct (Word.iskanji w); cbv zeta; by rewrite lookup_insert_eq.
Qed.

Lemma to_yaml_dict_string (w : Word.t) :
  Word.to_yaml_dict w !! "string" = Some (Word.string w).
Proof.
  unfold Word.to_yaml_dict.
  destruct (Word.iskanji w); cbv zeta;
    rewrite lookup_insert_ne by done; rewrite lookup_insert_eq;
    [done|by rewrite utf8_round_trip].
Qed.

(** X4.  Whatever main hands to the serializer, every record has type
    kanji or vocab, and the first record (if there is one) has type
    kanji: the output never starts with a vocabulary word. *)
Theorem main_records_start_with_kanji
    (response : Vision.AnnotateFileResponse) (config : Config)
    (records : list (gmap string string)) :
  main_dump response config = Ok records ->
  (forall r, r ∈ records ->
     r !! "type" = Some "kanji" \/ r !! "type" = Some "vocab")
  /\ (forall r rest, records = r :: rest -> r !! "type" = Some "kanji").
Proof.
  unfold main_dump.
  destruct (words_raw_from_response response config) as [words_raw|e];
    cbn [mbind result_bind]; [|done].
  rewrite merge_and_filter_words_eq.
  destruct (latin_filter words_raw) as [|w0 ws]; [done|].
  generalize (merge_from config None (w0 :: ws)). intros ms.
  cbn [mbind result_bind]. intros [= <-]. unfold dump_records. split.
  - intros r (q & -> & _)%list_elem_of_fmap.
    rewrite to_yaml_dict_type. destruct (Word.iskanji q); auto.
  - intros r rest Heq.
    destruct (grouped config ms) as [|q qs] eqn:Hg; [discriminate Heq|].
    injection Heq as <- _.
    apply grouped_head in Hg. unfold is_kanji in Hg.
    by rewrite to_yaml_dict_type, Hg.
Qed.

Lemma main_records_start_with_kanji_witness :
  main_dump sample_response sample_config
  = Ok (dump_records [ Word.mk "漢" 30 0 0 30 true;
                        Word.mk "かんじ" 32 20 0 30 false ])
  /\ (forall r rest,
        dump_records [ Word.mk "漢" 30 0 0 30 true;
                       Word.mk "かんじ" 32 20 0 30 false ] = r :: rest ->
        r !! "type" = Some "kanji").
Proof.
  split; [reflexivity|].
  apply (main_records_start_with_kanji sample_response sample_config).
  reflexivity.
Defined.

(** ** The merge pass and the objects it handles *)

Section StoreFacts.

Variable config : Config.
Variable ws : list Word.t.

Local Abbreviation n := (length ws).
Local Abbreviation raw := (seq 0 (length ws)).

Lemma merge_body_nodup st st' i :
  inv ws st -> (i + 1 < n)%nat -> NoDup (words st) ->
  merge_body config raw st i = Ok st' -> NoDup (words st').
Proof.
  intros [_ Hwords Hbuf Hfresh] Hi Hnd. unfold merge_body.
  rewrite !index_seq by lia. cbn [mbind result_bind].
  assert (Hnew : length (hp st) ∉ words st).
  { intros Hin. apply (proj1 (Forall_forall _ _) Hwords) in Hin. lia. }
  assert (Hsnoc : forall a, a ∉ words st -> NoDup (words st ++ [a])).
  { intros a Ha. apply NoDup_app. split; [done|]. split; [|apply NoDup_singleton].
    intros x Hx ->%list_elem_of_singleton. done. }
  destruct (Bool.eqb (Word.iskanji _) true).
  { intros [= <-]. cbn. by apply Hsnoc. }
  destruct (buffer_set st) eqn:Hbs; cbn [Bool.eqb alloc];
    destruct (Z.abs _ <=? _); intros [= <-]; cbn; auto.
Qed.

Lemma merge_loop_inv_nodup k : forall i st,
  inv ws st -> NoDup (words st) -> (i + k + 1 <= n)%nat ->
  exists st', for_each (seq i k) (merge_body config raw) st = Ok st'
              /\ inv ws st' /\ NoDup (words st').
Proof.
  induction k as [|k IH]; intros i st Hinv Hnd Hik; cbn [seq for_each].
  - by exists st.
  - destruct (merge_body_sound config ws st i Hinv) as (st1 & Hstep & Hinv1 & _);
      [lia|].
    rewrite Hstep. cbn [mbind result_bind].
    apply IH; [done| |lia]. by eapply merge_body_nodup; [| | |exact Hstep]; [|lia|].
Qed.

Lemma merge_pass_store :
  ws <> [] ->
  exists h front lst,
    merge_pass config ws raw = Ok (h, front ++ [lst])
    /\ take n h = ws
    /\ Forall (fun a => (n <= a < length h)%nat) front
    /\ ((n <= lst < length h)%nat \/ lst = (n - 1)%nat)
    /\ NoDup (front ++ [lst]).
Proof.
  intros Hne. unfold merge_pass.
  assert (0 < n)%nat as Hn by (destruct ws; [done|cbn; lia]).
  destruct (inv_init ws Hne) as (st0 & -> & Hinv0 & Hv0 & _).
  cbn [mbind result_bind]. rewrite length_seq.
  assert (NoDup (words st0)) as Hnd0.
  { unfold values in Hv0. apply map_eq_nil in Hv0. rewrite Hv0. constructor. }
  destruct (merge_loop_inv_nodup (n - 1) 0 st0 Hinv0 Hnd0)
    as (st & -> & [Hbase Hwords Hbuf Hfresh] & Hnd); [lia|].
  cbn [mbind result_bind]. unfold merge_flush.
  destruct (buffer_set st) eqn:Hbs; cbn [Bool.eqb].
  - exists (hp st), (words st), (buffer st).
    split; [done|]. split; [done|]. split; [done|]. split; [by left|].
    apply NoDup_app. split; [done|]. split; [|apply NoDup_singleton].
    intros x Hx ->%list_elem_of_singleton. by apply Hfresh.
  - pose proof (index_last_seq (n - 1)) as Hlast.
    replace (S (n - 1)) with n in Hlast by lia. rewrite Hlast.
    cbn [mbind result_bind].
    exists (hp st), (words st), (n - 1)%nat.
    split; [done|]. split; [done|]. split; [done|]. split; [by right|].
    apply NoDup_app. split; [done|]. split; [|apply NoDup_singleton].
    intros x Hx ->%list_elem_of_singleton.
    apply (proj1 (Forall_forall _ _) Hwords) in Hx. lia.
Qed.

End StoreFacts.

(** X5.  The merge pass never writes to the raw word objects: when it
    ends, the cells of the surviving raw words hold what they held at
    the start (all merging is done on copies). *)
Theorem merge_pass_leaves_raw_words (config : Config) (ws : list Word.t) :
  ws <> [] ->
  exists h out,
    merge_pass config ws (seq 0 (length ws)) = Ok (h, out)
    /\ take (length ws) h = ws
    /\ (forall i, (i < length ws)%nat -> deref h i = ws !!! i).
Proof.
  intros Hne.
  destruct (merge_pass_store config ws Hne) as (h & front & lst & Hrun & Hbase & _).
  exists h, (front ++ [lst]). split; [done|]. split; [done|].
  intros i Hi. unfold deref. rewrite !list_lookup_total_alt. f_equal.
  rewrite <- (lookup_take_lt h (length ws) i) by done. by rewrite Hbase.
Qed.

Lemma merge_pass_leaves_raw_words_witness :
  scenario_words <> []
  /\ exists h out,
       merge_pass scenario_config scenario_words
         (seq 0 (length scenario_words)) = Ok (h, out)
       /\ take (length scenario_words) h = scenario_words
       /\ (forall i, (i < length scenario_words)%nat ->
             deref h i = scenario_words !!! i).
Proof.
  split; [discriminate|].
  apply merge_pass_leaves_raw_words. discriminate.
Defined.

(** X6.  The objects of the merged list are pairwise distinct, and all
    of them are objects created by the pass, except that the last one
    may be the last raw word itself (line 127 appends it without a
    copy). *)
Theorem merged_objects_distinct_and_fresh (config : Config) (ws : list Word.t) :
  ws <> [] ->
  exists h front lst,
    merge_pass config ws (seq 0 (length ws)) = Ok (h, front ++ [lst])
    /\ NoDup (front ++ [lst])
    /\ Forall (fun a => (length ws <= a < length h)%nat) front
    /\ ((length ws <= lst < length h)%nat \/ lst = (length ws - 1)%nat).
Proof.
  intros Hne.
  destruct (merge_pass_store config ws Hne)
    as (h & front & lst & Hrun & _ & Hfront & Hlst & Hnd).
  by exists h, front, lst.
Qed.

Lemma merged_objects_distinct_and_fresh_witness :
  discard_words <> []
  /\ exists h front lst,
       merge_pass sample_config discard_words (seq 0 (length discard_words))
       = Ok (h, front ++ [lst])
       /\ NoDup (front ++ [lst])
       /\ Forall (fun a => (length discard_words <= a < length h)%nat) front
       /\ ((length discard_words <= lst < length h)%nat
           \/ lst = (length discard_words - 1)%nat).
Proof.
  split; [discriminate|].
  apply merged_objects_distinct_and_fresh. discriminate.
Defined.

(** ** What the merged list is made of *)

Lemma merge_from_length config : forall ws buf,
  ws <> [] ->
  (1 <= length (merge_from config buf ws) <= length ws)%nat.
Proof.
  induction ws as [|w ws IH]; intros buf Hne; [done|].
  destruct ws as [|w' ws]; [cbn; lia|].
  rewrite merge_from_cons.
  pose proof (IH None ltac:(done)) as H0.
  pose proof (IH (Some (Word.merge (default w buf) w')) ltac:(done)) as H1.
  destruct (Word.iskanji w); [cbn [length] in *; lia|].
  destruct (near config w w'); cbn [length] in *; lia.
Qed.

(** X7.  On a non-empty filtered list the merge pass returns a
    non-empty list that is no longer than its input: words are only
    ever fused or dropped, and the final flush always appends one. *)
Theorem merged_list_length (config : Config) (ws : list Word.t) :
  ws <> [] ->
  exists merged,
    merged_words config ws = Ok merged
    /\ (1 <= length merged <= length ws)%nat.
Proof.
  intros Hne. rewrite merged_words_eq.
  destruct ws as [|w ws]; [done|].
  eexists. split; [reflexivity|]. by apply merge_from_length.
Qed.

Lemma merged_list_length_witness :
  scenario_words <> []
  /\ exists merged,
       merged_words scenario_config scenario_words = Ok merged
       /\ (1 <= length merged <= length scenario_words)%nat.
Proof.
  split; [discriminate|]. apply merged_list_length. discriminate.
Defined.

Lemma merge_run_snoc first rest w :
  merge_run first (rest ++ [w]) = Word.merge (merge_run first rest) w.
Proof. unfold merge_run. by rewrite fold_left_app. Qed.

Lemma merge_from_slices config : forall ws buf pre,
  (forall b, buf = Some b ->
     exists p first mid w tl,
       ws = w :: tl /\ pre = p ++ first :: mid
       /\ b = merge_run first (mid ++ [w])) ->
  forall m, m ∈ merge_from config buf ws -> is_slice (pre ++ ws) m.
Proof.
  induction ws as [|w ws IH]; intros buf pre Hbuf m Hm;
    [by apply elem_of_nil in Hm|].
  assert (Hflush : forall post, ws = post -> is_slice (pre ++ w :: post)
                                               (default w buf)).
  { intros post _. destruct buf as [b|]; cbn [default].
    - destruct (Hbuf b eq_refl) as (p & first & mid & w1 & tl & [= <- <-] & -> & ->).
      exists p, first, (mid ++ [w]), post. split; [|done].
      rewrite <- !app_assoc. reflexivity.
    - by exists pre, w, [], post. }
  assert (Hnext : forall b, b = Word.merge (default w buf) (hd w ws) ->
            ws <> [] ->
            exists p first mid w1 tl,
              ws = w1 :: tl /\ pre ++ [w] = p ++ first :: mid
              /\ b = merge_run first (mid ++ [w1])).
  { intros b -> Hne. destruct ws as [|w' tl]; [done|]. cbn [hd].
    destruct buf as [b0|]; cbn [default].
    - destruct (Hbuf b0 eq_refl) as (p & first & mid & w1 & tl1 & [= <- <-] & -> & ->).
      exists p, first, (mid ++ [w]), w', tl. split; [done|].
      split; [rewrite <- !app_assoc; reflexivity|].
      symmetry. apply merge_run_snoc.
    - by exists pre, w, [], w', tl. }
  destruct ws as [|w' ws].
  - cbn in Hm. apply list_elem_of_singleton in Hm as ->. by apply Hflush.
  - rewrite merge_from_cons in Hm.
    assert (Hrec : forall buf',
              (forall b, buf' = Some b ->
                 b = Word.merge (default w buf) w') ->
              m ∈ merge_from config buf' (w' :: ws) ->
              is_slice (pre ++ w :: w' :: ws) m).
    { intros buf' Hb' Hin.
      replace (pre ++ w :: w' :: ws) with ((pre ++ [w]) ++ w' :: ws)
        by (by rewrite <- app_assoc).
      apply (IH buf'); [|done].
      intros b Hb. apply Hnext; [|done]. cbn [hd]. by apply Hb'. }
    destruct (Word.iskanji w).
    + apply elem_of_cons in Hm as [->|Hm].
      * by exists pre, w, [], (w' :: ws).
      * by apply (Hrec None).
    + destruct (near config w w').
      * apply (Hrec (Some (Word.merge (default w buf) w'))); [|done].
        by intros b [= <-].
      * apply elem_of_cons in Hm as [->|Hm]; [by apply Hflush|].
        by apply (Hrec None).
Qed.

(** X8.  Every word of the merged list is what a contiguous stretch of
    the filtered raw words merges into: the pass never reorders words
    and never joins words that are not neighbours. *)
Theorem merged_words_are_slices (config : Config) (ws merged : list Word.t)
    (m : Word.t) :
  merged_words config ws = Ok merged ->
  m ∈ merged ->
  exists pre first rest post,
    ws = pre ++ first :: rest ++ post
    /\ m = merge_run first rest.
Proof.
  rewrite merged_words_eq. destruct ws as [|w ws]; [done|].
  intros [= <-] Hm.
  apply (merge_from_slices config (w :: ws) None []); [done|done].
Qed.

Lemma merged_words_are_slices_witness :
  merged_words scenario_config scenario_words
  = Ok [ Word.mk "漢" 10 0 0 10 true; Word.mk "字" 10 0 12 22 true;
         Word.mk "かんじ" 20 12 0 9 false ]
  /\ exists pre first rest post,
       scenario_words = pre ++ first :: rest ++ post
       /\ Word.mk "かんじ" 20 12 0 9 false = merge_run first rest.
Proof.
  split; [reflexivity|].
  apply (merged_words_are_slices scenario_config scenario_words
           [ Word.mk "漢" 10 0 0 10 true; Word.mk "字" 10 0 12 22 true;
             Word.mk "かんじ" 20 12 0 9 false ]).
  - reflexivity.
  - apply list_elem_of_In. simpl. tauto.
Defined.

Lemma merge_from_kanji_from_input config : forall ws buf,
  (forall b, buf = Some b -> ~ is_kanji b) ->
  forall m, m ∈ merge_from config buf ws -> is_kanji m -> m ∈ ws.
Proof.
  induction ws as [|w ws IH]; intros buf Hbuf m Hm Hk;
    [by apply elem_of_nil in Hm|].
  assert (Hflush : m = default w buf -> m ∈ w :: ws).
  { intros ->. destruct buf as [b|]; cbn in *; [|left].
    by destruct (Hbuf b eq_refl). }
  destruct ws as [|w' ws].
  - cbn in Hm. apply list_elem_of_singleton in Hm. by apply Hflush.
  - rewrite merge_from_cons in Hm.
    destruct (Word.iskanji w) eqn:Hw.
    + apply elem_of_cons in Hm as [->|Hm]; [left|right].
      by apply (IH None).
    + destruct (near config w w').
      * right. apply (IH (Some (Word.merge (default w buf) w'))); [|done..].
        intros b [= <-]. unfold is_kanji. cbn.
        destruct buf as [b0|]; cbn; [by apply Hbuf|congruence].
      * apply elem_of_cons in Hm as [->|Hm]; [by apply Hflush|].
        right. by apply (IH None).
Qed.

Lemma grouped_subset config words q : q ∈ grouped config words -> q ∈ words.
Proof.
  unfold grouped. intros (k & Hq & Hk)%list_elem_of_bind.
  apply list_elem_of_filter in Hk as [_ Hk].
  apply elem_of_cons in Hq as [->|Hq]; [done|].
  by apply list_elem_of_filter in Hq as [_ ?].
Qed.

(** X9.  A word returned with the kanji flag is one of the raw words,
    with its text and box as given: the code never builds a kanji by
    merging and never changes one it returns. *)
Theorem returned_kanji_are_raw_words
    (words_raw : list Word.t) (config : Config)
    (queries : list Word.t) (q : Word.t) :
  merge_and_filter_words words_raw config = Ok queries ->
  q ∈ queries -> is_kanji q -> q ∈ words_raw.
Proof.
  rewrite merge_and_filter_words_eq.
  destruct (latin_filter words_raw) as [|w ws] eqn:Hf; [done|].
  intros [= <-] Hq Hk.
  apply grouped_subset in Hq.
  apply (merge_from_kanji_from_input config (w :: ws) None) in Hq; [|done..].
  rewrite <- Hf, latin_filter_spec in Hq.
  by apply list_elem_of_filter in Hq as [_ ?].
Qed.

Lemma returned_kanji_are_raw_words_witness :
  merge_and_filter_words trailing_kanji_words sample_config
  = Ok [ Word.mk "漢" 30 0 0 30 true; Word.mk "あ字" 32 20 40 81 false ]
  /\ Word.mk "漢" 30 0 0 30 true ∈ trailing_kanji_words.
Proof.
  split; [reflexivity|].
  apply (returned_kanji_are_raw_words trailing_kanji_words sample_config
           [ Word.mk "漢" 30 0 0 30 true; Word.mk "あ字" 32 20 40 81 false ]).
  - reflexivity.
  - left.
  - reflexivity.
Defined.

Lemma merge_from_far config : forall ws,
  (forall i w w', ws !! i = Some w -> ws !! S i = Some w' ->
     near config w w' = false) ->
  merge_from config None ws = ws.
Proof.
  induction ws as [|w ws IH]; intros Hfar; [done|].
  destruct ws as [|w' ws]; [done|].
  rewrite merge_from_cons, (Hfar 0%nat w w') by done.
  rewrite IH; [by destruct (Word.iskanji w)|].
  intros i a b Ha Hb. by apply (Hfar (S i)).
Qed.

(** X10.  When no two neighbouring words of the filtered list are
    within min_interword_distance of each other (for instance when that
    distance is negative), the merged list is the filtered list
    itself. *)
Theorem nothing_merges_when_all_far (config : Config) (ws : list Word.t) :
  ws <> [] ->
  (min_interword_distance config < 0
   \/ forall i w w', ws !! i = Some w -> ws !! S i = Some w' ->
        min_interword_distance config < Z.abs (Word.xl w' - Word.xr w)) ->
  merged_words config ws = Ok ws.
Proof.
  intros Hne Hfar. rewrite merged_words_eq.
  destruct ws as [|w0 ws0] eqn:Hws; [done|]. rewrite <- Hws. f_equal.
  apply merge_from_far. intros i w w' Hw Hw'. unfold near.
  apply Z.leb_gt. destruct Hfar as [Hneg|Hfar]; [lia|].
  rewrite <- Hws in Hfar. by apply (Hfar i).
Qed.

Lemma nothing_merges_when_all_far_witness :
  scenario_words <> []
  /\ min_interword_distance
       {| min_confidence := QArith_base.Qmake 1 2; min_word_height := 5;
          min_kanji_height := 10; min_interword_distance := -1;
          max_distance_from_kanji_top := 3;
          max_distance_from_kanji_bottom := 3 |} < 0
  /\ merged_words
       {| min_confidence := QArith_base.Qmake 1 2; min_word_height := 5;
          min_kanji_height := 10; min_interword_distance := -1;
          max_distance_from_kanji_top := 3;
          max_distance_from_kanji_bottom := 3 |} scenario_words
     = Ok scenario_words.
Proof.
  split; [discriminate|]. split; [reflexivity|].
  apply nothing_merges_when_all_far; [discriminate|]. left. reflexivity.
Defined.

Lemma filter_kanji_vocab config k (l : list Word.t) :
  filter is_kanji
    (filter (fun v => ~ is_kanji v /\ within_window config k v) l) = [].
Proof.
  rewrite list_filter_filter.
  induction l as [|v vs IH]; [done|].
  rewrite filter_cons_False; [done|]. tauto.
Qed.

Lemma filter_kanji_grouped config words :
  filter is_kanji (grouped config words) = filter is_kanji words.
Proof.
  unfold grouped.
  assert (Forall is_kanji (filter is_kanji words)) as Hks.
  { apply Forall_forall. intros k Hk. by apply list_elem_of_filter in Hk as [? _]. }
  induction Hks as [|k ks Hk _ IH]; [done|].
  rewrite bind_cons, filter_app, IH.
  rewrite filter_cons_True by done. cbn [app]. f_equal.
  by rewrite filter_kanji_vocab.
Qed.

(** X11.  A word is in the result exactly when it is a word of the
    merged list that is a kanji, or lies in the expanded window of some
    kanji of the merged list; and the kanji of the result are the kanji
    of the merged list, in the same order and as many. *)
Theorem queries_membership (words_raw : list Word.t) (config : Config)
    (merged : list Word.t) :
  merged_words config (latin_filter words_raw) = Ok merged ->
  exists queries,
    merge_and_filter_words words_raw config = Ok queries
    /\ (forall q, q ∈ queries
          <-> q ∈ merged
              /\ (is_kanji q
                  \/ exists k, k ∈ merged /\ is_kanji k
                               /\ within_window config k q))
    /\ filter is_kanji queries = filter is_kanji merged.
Proof.
  intros Hm. unfold merge_and_filter_words.
  rewrite merge_and_group_eq, Hm. cbn.
  eexists. split; [reflexivity|]. split; [|apply filter_kanji_grouped].
  intros q. unfold grouped. rewrite list_elem_of_bind. split.
  - intros (k & Hq & [Hk Hin]%list_elem_of_filter).
    apply elem_of_cons in Hq as [->|Hq]; [by auto|].
    apply list_elem_of_filter in Hq as [[_ Hw] Hq]. split; [done|].
    right. by exists k.
  - intros [Hq [Hk|(k & Hin & Hk & Hw)]].
    + exists q. split; [left|]. by apply list_elem_of_filter.
    + destruct (decide (is_kanji q)) as [Hqk|Hqk].
      * exists q. split; [left|]. by apply list_elem_of_filter.
      * exists k. split; [|by apply list_elem_of_filter].
        right. by apply list_elem_of_filter.
Qed.

Lemma queries_membership_witness :
  merged_words sample_config (latin_filter discard_words)
  = Ok [ Word.mk "漢" 30 0 11 41 true; Word.mk "い" 32 20 50 60 false ]
  /\ exists queries,
       merge_and_filter_words discard_words sample_config = Ok queries
       /\ (forall q, q ∈ queries
             <-> q ∈ [ Word.mk "漢" 30 0 11 41 true;
                        Word.mk "い" 32 20 50 60 false ]
                 /\ (is_kanji q
                     \/ exists k,
                          k ∈ [ Word.mk "漢" 30 0 11 41 true;
                                 Word.mk "い" 32 20 50 60 false ]
                          /\ is_kanji k /\ within_window sample_config k q))
       /\ filter is_kanji queries
          = filter is_kanji [ Word.mk "漢" 30 0 11 41 true;
                              Word.mk "い" 32 20 50 60 false ].
Proof.
  split; [reflexivity|].
  apply queries_membership. reflexivity.
Defined.

(** ** Edge cases of merge_and_filter_words *)

(** X12.  When exactly one word survives the Latin/numeric filter the
    loop body never runs: the result is that word alone if it is a
    kanji, and the empty list otherwise. *)
Theorem single_word_result (words_raw : list Word.t) (config : Config)
    (w : Word.t) :
  latin_filter words_raw = [w] ->
  merge_and_filter_words words_raw config
  = Ok (if Word.iskanji w then [w] else []).
Proof.
  intros Hf. rewrite merge_and_filter_words_eq, Hf.
  cbn [merge_from default]. f_equal. unfold grouped.
  rewrite filter_cons, filter_nil.
  case_decide as Hk; unfold is_kanji in Hk.
  - rewrite Hk, bind_cons, filter_cons_False, filter_nil by (unfold is_kanji; tauto).
    done.
  - apply not_true_is_false in Hk. by rewrite Hk.
Qed.

Lemma single_word_result_witness :
  latin_filter [ Word.mk "3D" 30 0 40 70 true; Word.mk "かん" 32 20 0 20 false ]
  = [ Word.mk "かん" 32 20 0 20 false ]
  /\ merge_and_filter_words
       [ Word.mk "3D" 30 0 40 70 true; Word.mk "かん" 32 20 0 20 false ]
       sample_config
     = Ok [].
Proof.
  split; [reflexivity|].
  apply (single_word_result _ sample_config (Word.mk "かん" 32 20 0 20 false)).
  reflexivity.
Defined.

(** X13.  Filtering is idempotent, so running the function on an
    already filtered list gives the result it gives on the raw list. *)
Theorem filtering_twice_changes_nothing
    (words_raw : list Word.t) (config : Config) :
  latin_filter (latin_filter words_raw) = latin_filter words_raw
  /\ merge_and_filter_words (latin_filter words_raw) config
     = merge_and_filter_words words_raw config.
Proof.
  assert (latin_filter (latin_filter words_raw) = latin_filter words_raw) as Hi.
  { rewrite !latin_filter_spec, list_filter_filter.
    apply list_filter_iff. tauto. }
  split; [done|]. by rewrite !merge_and_filter_words_eq, Hi.
Qed.

(** ** The output record *)

(** X14.  Two words give the same record exactly when they have the
    same text and the same kanji flag: the record keeps these two
    attributes and nothing of the box. *)
Theorem yaml_record_keeps_text_and_flag (w w' : Word.t) :
  Word.to_yaml_dict w = Word.to_yaml_dict w'
  <-> Word.string w = Word.string w' /\ Word.iskanji w = Word.iskanji w'.
Proof.
  split.
  - intros Heq.
    pose proof (to_yaml_dict_string w) as Hs.
    pose proof (to_yaml_dict_type w) as Ht.
    rewrite Heq, to_yaml_dict_string in Hs.
    rewrite Heq, to_yaml_dict_type in Ht.
    injection Hs as Hs. split; [done|].
    destruct (Word.iskanji w), (Word.iskanji w'); done.
  - intros [Hs Hk]. unfold Word.to_yaml_dict. by rewrite Hs, Hk.
Qed.

(** ** Witnesses of the lemmas on kanji and runs *)

Lemma kanji_kept_witness :
  latin_filter discard_words
  = [ Word.mk "あ" 32 20 0 10 false ]
    ++ Word.mk "漢" 30 0 11 41 true :: [ Word.mk "い" 32 20 50 60 false ]
  /\ exists queries,
       merge_and_filter_words discard_words sample_config = Ok queries
       /\ Word.mk "漢" 30 0 11 41 true ∈ queries.
Proof.
  split; [reflexivity|].
  apply (kanji_kept discard_words sample_config
           [ Word.mk "あ" 32 20 0 10 false ] (Word.mk "漢" 30 0 11 41 true)
           [ Word.mk "い" 32 20 50 60 false ]).
  - reflexivity.
  - reflexivity.
  - left. discriminate.
Defined.

Lemma clean_run_is_merged_witness :
  chained scenario_config (Word.mk "かん" 20 12 0 5 false)
    [ Word.mk "じ" 20 12 6 9 false ]
  /\ exists before after,
       merged_words scenario_config
         ([ Word.mk "漢" 10 0 0 10 true; Word.mk "字" 10 0 12 22 true ]
          ++ Word.mk "かん" 20 12 0 5 false
             :: [ Word.mk "じ" 20 12 6 9 false ] ++ [])
       = Ok (before
             ++ merge_run (Word.mk "かん" 20 12 0 5 false)
                  [ Word.mk "じ" 20 12 6 9 false ]
                :: after).
Proof.
  split; [by split|].
  apply clean_run_is_merged.
  - right. left. reflexivity.
  - discriminate.
  - repeat constructor; discriminate.
  - by split.
  - intros p post' Hpost. discriminate Hpost.
Defined.
